(** * tiny-package-manager: the resolver and the lock store (list.ts)

    A shallow embedding of [collectDeps], [checkStackDependencies],
    [hasCirculation] and the default export of the resolver (list.ts lines
    1-146), and of [getItem], [updateOrCreate] and [writeLock] of the lock
    store, the module [./lock] (list.ts lines 147-199), followed by the
    properties of the specification that concern them.  [readLock] and the
    part of the front end that prepares the manifest and counts the packages
    to install (index.ts lines 8-23 and 30-32) are embedded after them, with
    further properties of the resolver.

    Conventions.
    - A JS object whose key order is observable ([Object.keys],
      [Object.entries], the YAML dump) is an insertion-ordered association
      list; [topLevel] and [oldLock], which are only read by key, are [gmap]s.
    - [semver] is an external library: [semver.satisfies] is the class
      [Semver].  Line 40 calls [semver.maxSatisying], a name that the library
      does not export: for a non-empty constraint the call throws ([undefined]
      is not a function) and the body of [collectDeps] ends there.
    - [resolve] (the registry client) is not part of the sources: the registry
      is a finite map from package names to manifests.
    - [collectDeps] is an [async] function.  Its only suspension points are
      [await resolve(name)], before anything else is done, and the final
      [await Promise.all(...)]: once the manifest is there, lines 36-90 run
      atomically.  That body is [collectDeps] below; the calls that have been
      made and whose body has not run yet are kept in a pool, from which a
      scheduler picks the next one ([step]).  The stack array is shared by a
      root call and all the calls below it, and frames are pushed and never
      popped: the arrays live in a store and a call holds a reference. *)

From Stdlib Require Import ZArith String Ascii List Lia DecimalString Permutation Sorted.
From stdpp Require Import base option list strings gmap relations sorting.

Local Open Scope string_scope.
Local Open Scope list_scope.
Local Open Scope Z_scope.

(** ** JavaScript helpers *)

(** A JS object read in insertion order. *)
Abbreviation JsObject V := (list (string * V)).

(** [o[k]] *)
Fixpoint obj_get {V} (k : string) (o : JsObject V) : option V :=
  match o with
  | [] => None
  | (k', v) :: o' => if String.eqb k' k then Some v else obj_get k o'
  end.

(** [o[k] = v]: an existing key keeps its position, a new key goes last. *)
Fixpoint obj_set {V} (k : string) (v : V) (o : JsObject V) : JsObject V :=
  match o with
  | [] => [(k, v)]
  | (k', v') :: o' =>
      if String.eqb k' k then (k', v) :: o' else (k', v') :: obj_set k v o'
  end.

(** [Object.keys(o)] *)
Definition obj_keys {V} (o : JsObject V) : list string := map fst o.

(** [Array.prototype.findIndex]: the first index at which [p] holds, or -1. *)
Fixpoint findIndex {A} (p : A → bool) (l : list A) : Z :=
  match l with
  | [] => -1
  | x :: l' =>
      if p x then 0
      else let r := findIndex p l' in if r =? -1 then -1 else r + 1
  end.

(** [Array.prototype.slice(start)]: a negative [start] counts from the end. *)
Definition slice {A} (start : Z) (l : list A) : list A :=
  let len := Z.of_nat (length l) in
  let k := if start <? 0 then Z.max (len + start) 0 else Z.min start len in
  drop (Z.to_nat k) l.

(** [Array.prototype.join(sep)] on strings. *)
Fixpoint join (sep : string) (l : list string) : string :=
  match l with
  | [] => ""
  | [x] => x
  | x :: l' => x +:+ sep +:+ join sep l'
  end.

(** Truthiness of a string: only the empty string is falsy. *)
Definition truthy (s : string) : bool := negb (String.eqb s "").

(** ** The semver library *)

Class Semver := {
  satisfies : string → string → bool
}.

(** ** Plain objects *)

(** The members that a plain object inherits from [Object.prototype]: for
    one of these names [o[name]] is never [undefined]. *)
Definition inherited (name : string) : bool :=
  existsb (String.eqb name)
    ["constructor"; "__defineGetter__"; "__defineSetter__";
     "hasOwnProperty"; "__lookupGetter__"; "__lookupSetter__";
     "isPrototypeOf"; "propertyIsEnumerable"; "toString"; "valueOf";
     "__proto__"; "toLocaleString"].

(** ** Data model (lines 6-25 and 152-159) *)

Abbreviation DependenciesMap := (JsObject string).

Record Frame := {
  f_name : string;
  f_version : string;
  f_dependencies : DependenciesMap
}.

Abbreviation DependencyStack := (list Frame).

Record PackageJson := {
  pj_dependencies : option DependenciesMap;
  pj_devDependencies : option DependenciesMap
}.

Record TopEntry := { top_url : string; top_version : string }.

(** An entry of [unsatisfied]: the object literal [{ name, parent, url }] of
    lines 54-61 and 63-67. *)
Definition unsatisfiedEntry (name parent url : string) : JsObject string :=
  [("name", name); ("parent", parent); ("url", url)].

Record Dist := { d_shasum : string; d_tarball : string }.

Record VersionManifest := {
  m_dependencies : option DependenciesMap;
  m_dist : Dist
}.

Abbreviation Manifest := (JsObject VersionManifest).

Record LockEntry := {
  l_version : string;
  l_url : string;
  l_shasum : string;
  l_dependencies : DependenciesMap
}.

(** ** Stack scans (lines 96-114) *)

Section Scans.
Context `{Semver}.

(** The callback of [findIndex] (lines 101-107): [true] for a frame whose
    [dependencies[name]] is [undefined] or the empty string, and otherwise
    whether [version] satisfies it.  [dependencies] is a plain object (of the
    registry's JSON, of the lock's YAML, or [{}]): for a name that it does
    not list, [dependencies[name]] is [undefined] unless the name is a member
    of [Object.prototype]; what is read then is a function (the prototype
    itself for [__proto__]), which is truthy and which [semver.satisfies]
    does not accept as a range: it answers [false]. *)
Definition compatible_frame (name version : string) (fr : Frame) : bool :=
  match obj_get name (f_dependencies fr) with
  | Some semverRange =>
      if truthy semverRange then satisfies version semverRange else true
  | None => negb (inherited name)
  end.

Definition checkStackDependencies
    (name version : string) (stack : DependencyStack) : Z :=
  findIndex (compatible_frame name version) stack.

Definition hasCirculation
    (name range : string) (stack : DependencyStack) : bool :=
  existsb (λ item,
    String.eqb (f_name item) name && satisfies (f_version item) range) stack.

End Scans.

(** ** The lock store (lines 147-199) *)

(** The key of a lock entry: [`${name}@${constraint}`]. *)
Definition lockKey (name constraint : string) : string :=
  name +:+ "@" +:+ constraint.

(** [getItem]: the synthetic manifest of a locked request (lines 173-186). *)
Definition getItem (oldLock : gmap string LockEntry)
    (name constraint : string) : option Manifest :=
  match oldLock !! lockKey name constraint with
  | None => None
  | Some item =>
      Some [(l_version item,
             {| m_dependencies := Some (l_dependencies item);
                m_dist := {| d_shasum := l_shasum item;
                             d_tarball := l_url item |} |})]
  end.

(** [updateOrCreate] (lines 165-171): [info] always carries the four fields,
    so [Object.assign] replaces the whole entry and keeps the key where it
    is. *)
Definition updateOrCreate (name : string) (info : LockEntry)
    (newLock : JsObject LockEntry) : JsObject LockEntry :=
  obj_set name info newLock.

(** ** Resolver state *)

(** A call of [collectDeps] that has been made and whose body has not run yet.
    [t_stack] is the reference of the stack array it was given; [t_root] marks
    the calls made by the default export, whose value the driver awaits. *)
Record Task := {
  t_name : string;
  t_constraint : string;
  t_stack : nat;
  t_root : bool
}.

(** The module state, the stack arrays and the calls.  [returned] holds, in
    the order of the bodies, the values that the root calls whose body has
    run have to return at line 93: they are fixed when the body runs
    ([name] and [matched] are constants of the call), but a call returns
    only when the calls below it have resolved, and the driver gets the
    values from [Promise.all], when every root call has returned
    ([delivered] below). *)
Record State := {
  topLevel : gmap string TopEntry;
  unsatisfied : list (JsObject string);
  newLock : JsObject LockEntry;
  stacks : gmap nat DependencyStack;
  pending : list Task;
  returned : list (string * string)
}.

Definition stack_of (st : State) (ref : nat) : DependencyStack :=
  default [] (stacks st !! ref).

(** [await Promise.all(...)] (lines 119-123 and 133-137): the values of the
    root calls, once all of them have returned.  A call returns when its body
    has run and the calls below it have returned; a body that throws rejects
    the run.  So the values are there exactly when no call is pending.  The
    values are assigned to distinct keys of the field, so that the order in
    which they are listed does not matter. *)
Definition delivered (st : State) : option (list (string * string)) :=
  match pending st with
  | [] => Some (returned st)
  | _ :: _ => None
  end.

Definition with_pending (p : list Task) (st : State) : State :=
  {| topLevel := topLevel st; unsatisfied := unsatisfied st;
     newLock := newLock st; stacks := stacks st;
     pending := p; returned := returned st |}.

Inductive Failure :=
  | RegistryFailure      (* [resolve(name)] rejects *)
  | NotAFunction         (* line 40: [semver.maxSatisying] is not a function *)
  | NoMatchingVersion    (* [throw new Error("Cannot find a version ...")] *)
  | TypeError.           (* a property is read from [undefined] *)

Inductive Outcome (A : Type) :=
  | OutOfFuel
  | Rejected (e : Failure)
  | Resolved (a : A).
Arguments OutOfFuel {A}.
Arguments Rejected {A} e.
Arguments Resolved {A} a.

(** The branch taken by the placement decision (lines 48-68). *)
Inductive Placement :=
  | PlaceTop
  | PlaceCovered
  | PlaceUnderConflict (conflictIndex : Z) (parent : string)
  | PlaceUnderParent (parent : string).

Definition nested_parent (p : Placement) : option string :=
  match p with
  | PlaceUnderConflict _ parent | PlaceUnderParent parent => Some parent
  | PlaceTop | PlaceCovered => None
  end.

Section Resolver.
Context `{Semver}.
Variable registry : gmap string Manifest.
Variable oldLock : gmap string LockEntry.

(** [lock.getItem(name, constraint) || (await resolve(name))] *)
Definition acquireManifest (name constraint : string) : option Manifest :=
  match getItem oldLock name constraint with
  | Some fromLock => Some fromLock
  | None => registry !! name
  end.

(** Lines 38-44: the version choice.  With a non-empty constraint the call
    of line 40 throws; with an empty one the last key of the manifest is
    taken, and a falsy result (no key, or an empty one) throws the [Error] of
    line 43. *)
Definition chooseVersion (manifest : Manifest) (constraint : string)
    : Failure + string :=
  let versions := obj_keys manifest in
  if truthy constraint then inl NotAFunction
  else
    match last versions with
    | Some v => if truthy v then inr v else inl NoMatchingVersion
    | None => inl NoMatchingVersion
    end.

(** Lines 48-68. *)
Definition placement (name constraint matched : string)
    (stack : DependencyStack) (top : gmap string TopEntry)
    : Failure + Placement :=
  match top !! name with
  | None => inr PlaceTop
  | Some bound =>
      if satisfies (top_version bound) constraint then
        let conflictIndex := checkStackDependencies name matched stack in
        if conflictIndex =? -1 then inr PlaceCovered
        else inr (PlaceUnderConflict conflictIndex
                    (join "/node_modules/"
                       (slice (conflictIndex - 2) (map f_name stack))))
      else
        match last stack with
        | None => inl TypeError
        | Some fr => inr (PlaceUnderParent (f_name fr))
        end
  end.

(** The calls made by lines 85-89, after the frame has been pushed. *)
Definition spawn (ref : nat) (dependencies : DependenciesMap)
    (stack : DependencyStack) : list Task :=
  map (λ '(dep, range),
         {| t_name := dep; t_constraint := range;
            t_stack := ref; t_root := false |})
      (filter (λ '(dep, range), hasCirculation dep range stack = false)
              dependencies).

(** Lines 70-94, for a call that was not stopped at line 52.  The test of
    line 79 always holds, [dependencies] being an object. *)
Definition recordAndDescend (t : Task) (matched : string)
    (mm : VersionManifest) (p : Placement) (st : State) : State :=
  let name := t_name t in
  let constraint := t_constraint t in
  let dependencies := default [] (m_dependencies mm) in
  let stack :=
    stack_of st (t_stack t) ++
      [{| f_name := name; f_version := matched;
          f_dependencies := dependencies |}] in
  {| topLevel :=
       match p with
       | PlaceTop =>
           <[name := {| top_url := d_tarball (m_dist mm);
                        top_version := matched |}]> (topLevel st)
       | _ => topLevel st
       end;
     unsatisfied :=
       match nested_parent p with
       | Some parent =>
           unsatisfied st ++
             [unsatisfiedEntry name parent (d_tarball (m_dist mm))]
       | None => unsatisfied st
       end;
     newLock :=
       updateOrCreate (lockKey name constraint)
         {| l_version := matched; l_url := d_tarball (m_dist mm);
            l_shasum := d_shasum (m_dist mm);
            l_dependencies := dependencies |} (newLock st);
     stacks := <[t_stack t := stack]> (stacks st);
     pending := spawn (t_stack t) dependencies stack ++ pending st;
     returned :=
       if t_root t && negb (truthy constraint)
       then returned st ++ [(name, "^" +:+ matched)]
       else returned st |}.

(** The body of [collectDeps] (lines 27-95), run on the state from whose
    pool the call has been taken. *)
Definition collectDeps (t : Task) (st : State) : Failure + State :=
  match acquireManifest (t_name t) (t_constraint t) with
  | None => inl RegistryFailure
  | Some manifest =>
      match chooseVersion manifest (t_constraint t) with
      | inl e => inl e
      | inr matched =>
          match obj_get matched manifest with
          | None => inl TypeError
          | Some matchedManifest =>
              match placement (t_name t) (t_constraint t) matched
                      (stack_of st (t_stack t)) (topLevel st) with
              | inl e => inl e
              | inr PlaceCovered => inr st
              | inr p => inr (recordAndDescend t matched matchedManifest p st)
              end
          end
      end
  end.

(** One scheduling step: any pending call may be the next whose body runs.
    A body that throws rejects the run; [step] only follows the bodies that
    complete. *)
Definition step (st st' : State) : Prop :=
  ∃ i t, pending st !! i = Some t ∧
         collectDeps t (with_pending (delete i (pending st)) st) = inr st'.

(** The schedule in which the calls run depth first, in the order of
    [Object.entries]: it is the order of execution when every request is
    answered by the lock (no call is suspended before its body).  With a
    registry the bodies run as the manifests arrive; [run] is then one of
    the possible orders, and [step] covers all of them. *)
Fixpoint run (fuel : nat) (st : State) : Outcome State :=
  match pending st with
  | [] => Resolved st
  | t :: rest =>
      match fuel with
      | O => OutOfFuel
      | S fuel' =>
          match collectDeps t (with_pending rest st) with
          | inl e => Rejected e
          | inr st' => run fuel' st'
          end
      end
  end.

(** [Object.entries(deps).map((pair) => collectDeps(...pair))]: every call
    gets a stack array of its own (the default parameter); the arrays of
    the calls made before are no longer referenced. *)
Definition rootCalls (deps : DependenciesMap) (st : State) : State :=
  {| topLevel := topLevel st; unsatisfied := unsatisfied st;
     newLock := newLock st; stacks := ∅;
     pending :=
       imap (λ i '(name, constraint),
               {| t_name := name; t_constraint := constraint;
                  t_stack := i; t_root := true |}) deps;
     returned := [] |}.

(** What the default export does to the module state: the body of a pending
    call runs or, once no call is pending, the calls for a field of the
    manifest are made. *)
Inductive progress : State → State → Prop :=
  | progress_call st st' : step st st' → progress st st'
  | progress_field deps st : pending st = [] → progress st (rootCalls deps st).

(** [.filter(Boolean).forEach((item) => (deps[item.name] = item.version))] *)
Definition rewriteRanges (items : list (string * string))
    (deps : DependenciesMap) : DependenciesMap :=
  fold_left (λ o '(name, version), obj_set name version o) items deps.

Definition resolveField (fuel : nat) (field : option DependenciesMap)
    (st : State) : Outcome (option DependenciesMap * State) :=
  match field with
  | None => Resolved (None, st)
  | Some deps =>
      match run fuel (rootCalls deps st) with
      | OutOfFuel => OutOfFuel
      | Rejected e => Rejected e
      | Resolved st' => Resolved (Some (rewriteRanges (returned st') deps), st')
      end
  end.

(** A field of the manifest, under any schedule of the bodies: the root
    calls are made, the bodies run in some order until the values are
    delivered, and the field is rewritten. *)
Definition fieldResolves (field : option DependenciesMap) (st : State)
    (field' : option DependenciesMap) (st' : State) : Prop :=
  match field with
  | None => field' = None ∧ st' = st
  | Some deps =>
      ∃ items,
        rtc step (rootCalls deps st) st' ∧ delivered st' = Some items ∧
        field' = Some (rewriteRanges items deps)
  end.

(** The default export of list.ts (lines 116-146) under any schedule. *)
Definition listResolves (rootManifest : PackageJson) (st : State)
    (rewritten : PackageJson) (st' : State) : Prop :=
  ∃ st1,
    fieldResolves (pj_dependencies rootManifest) st
      (pj_dependencies rewritten) st1 ∧
    fieldResolves (pj_devDependencies rootManifest) st1
      (pj_devDependencies rewritten) st'.

(** The default export of list.ts (lines 116-146) in the depth-first order
    of [run]: the rewritten manifest and the final state, whose [topLevel]
    and [unsatisfied] are the plan. *)
Definition listDefault (fuel : nat) (rootManifest : PackageJson) (st : State)
    : Outcome (PackageJson * State) :=
  match resolveField fuel (pj_dependencies rootManifest) st with
  | OutOfFuel => OutOfFuel
  | Rejected e => Rejected e
  | Resolved (dependencies, st1) =>
      match resolveField fuel (pj_devDependencies rootManifest) st1 with
      | OutOfFuel => OutOfFuel
      | Rejected e => Rejected e
      | Resolved (devDependencies, st2) =>
          Resolved ({| pj_dependencies := dependencies;
                       pj_devDependencies := devDependencies |}, st2)
      end
  end.

End Resolver.

(** The module state when the process starts. *)
Definition initial : State :=
  {| topLevel := ∅; unsatisfied := []; newLock := [];
     stacks := ∅; pending := []; returned := [] |}.

(** ** A fragment of node-semver

    Versions [x.y.z] and [x.y.z-tag] and the ranges [""], ["*"], [x.y.z],
    [^x.y.z] and [~x.y.z], enough to run the resolver on concrete
    registries.  A version with a prerelease tag satisfies a range only when
    the range names a prerelease of the same [x.y.z]; no range of the
    fragment does.  [satisfies] is the only entry point of the library that
    the source reaches. *)

Module NodeSemver.

Definition number (s : string) : option nat :=
  match s with
  | EmptyString => None
  | _ => Nat.of_uint <$> NilEmpty.uint_of_string s
  end.

Fixpoint fields (s cur : string) : list string :=
  match s with
  | EmptyString => [cur]
  | String c s' =>
      if Ascii.eqb c "."%char then cur :: fields s' ""
      else fields s' (cur +:+ String c "")
  end.

Definition parse (s : string) : option (nat * nat * nat) :=
  match fields s "" with
  | [a; b; c] =>
      match number a, number b, number c with
      | Some x, Some y, Some z => Some (x, y, z)
      | _, _, _ => None
      end
  | _ => None
  end.

Definition ltb (v w : nat * nat * nat) : bool :=
  let '(a, b, c) := v in
  let '(x, y, z) := w in
  ((a <? x) || ((a =? x) && ((b <? y) || ((b =? y) && (c <? z)))))%nat.

Definition eqb (v w : nat * nat * nat) : bool :=
  let '(a, b, c) := v in
  let '(x, y, z) := w in
  ((a =? x) && (b =? y) && (c =? z))%nat.

Inductive Range :=
  | Any
  | Exact (v : nat * nat * nat)
  | Caret (v : nat * nat * nat)
  | Tilde (v : nat * nat * nat).

Definition parseRange (s : string) : option Range :=
  match s with
  | EmptyString => Some Any
  | String c s' =>
      if String.eqb s "*" then Some Any
      else if Ascii.eqb c "^"%char then Caret <$> parse s'
      else if Ascii.eqb c "~"%char then Tilde <$> parse s'
      else Exact <$> parse s
  end.

Definition test (r : Range) (v : nat * nat * nat) : bool :=
  match r with
  | Any => true
  | Exact w => eqb v w
  | Caret ((x, y, z) as w) =>
      let '(a, b, c) := v in
      negb (ltb v w) &&
      (if (0 <? x)%nat then (a =? x)%nat
       else if (0 <? y)%nat then (a =? 0)%nat && (b =? y)%nat
       else eqb v w)
  | Tilde ((x, y, z) as w) =>
      let '(a, b, c) := v in
      negb (ltb v w) && (a =? x)%nat && (b =? y)%nat
  end.

Fixpoint untag (s cur : string) : string * option string :=
  match s with
  | EmptyString => (cur, None)
  | String c s' =>
      if Ascii.eqb c "-"%char then (cur, Some s')
      else untag s' (cur +:+ String c "")
  end.

(** The release triple of a version and whether a prerelease tag follows. *)
Definition parseVersion (s : string) : option (nat * nat * nat * bool) :=
  let '(core, tag) := untag s "" in
  match parse core, tag with
  | Some v, None => Some (v, false)
  | Some v, Some t => if truthy t then Some (v, true) else None
  | None, _ => None
  end.

Definition satisfies (version range : string) : bool :=
  match parseVersion version, parseRange range with
  | Some (v, false), Some r => test r v
  | _, _ => false
  end.

Definition semver : Semver := Build_Semver satisfies.

End NodeSemver.

(** ** The two scans as the specification words them *)

(** Section 4.3.4: the lowest index whose frame's [dependencies[name]] exists
    and is not satisfied by [version], or -1. *)
Definition conflictScan_spec `{Semver}
    (name version : string) (stack : DependencyStack) : Z :=
  findIndex (λ fr,
    match obj_get name (f_dependencies fr) with
    | Some range => negb (satisfies version range)
    | None => false
    end) stack.

(** Section 4.3.2: the names of the frames from index [i - 2] through the
    end of the stack (no frame has a negative index), joined. *)
Definition parentPath_spec (i : Z) (stack : DependencyStack) : string :=
  join "/node_modules/" (drop (Z.to_nat (i - 2)) (map f_name stack)).

(** The lock entry written at lines 72-77. *)
Definition lockEntry_of (matched : string) (mm : VersionManifest) : LockEntry :=
  {| l_version := matched; l_url := d_tarball (m_dist mm);
     l_shasum := d_shasum (m_dist mm);
     l_dependencies := default [] (m_dependencies mm) |}.

(** [matched] is the version chosen for the demand [(name, constraint)], and
    [mm] what the manifest lists for it. *)
Definition chosen `{Semver} (registry : gmap string Manifest)
    (oldLock : gmap string LockEntry) (name constraint matched : string)
    (mm : VersionManifest) : Prop :=
  ∃ manifest,
    acquireManifest registry oldLock name constraint = Some manifest ∧
    chooseVersion manifest constraint = inr matched ∧
    obj_get matched manifest = Some mm.

(** An entry of [unsatisfied] that carries the tarball of the version chosen
    for the demand of its package: the demand has the empty range, as every
    demand whose call gets past line 40. *)
Definition chosen_for `{Semver} (registry : gmap string Manifest)
    (oldLock : gmap string LockEntry) (entry : JsObject string) : Prop :=
  ∃ name matched mm,
    obj_get "name" entry = Some name ∧
    chosen registry oldLock name "" matched mm ∧
    obj_get "url" entry = Some (d_tarball (m_dist mm)).

(** An entry of [unsatisfied] as the source builds it: the three keys
    [name], [parent] and [url], with the tarball of the chosen version. *)
Definition pushed_entry `{Semver} (registry : gmap string Manifest)
    (oldLock : gmap string LockEntry) (entry : JsObject string) : Prop :=
  obj_keys entry = ["name"; "parent"; "url"] ∧
  chosen_for registry oldLock entry.

(** Every name bound at the top level has its entry in the new lock, under
    the key of its demand with the empty range. *)
Definition bound_names_locked `{Semver} (registry : gmap string Manifest)
    (oldLock : gmap string LockEntry) (st : State) : Prop :=
  ∀ name bound,
    topLevel st !! name = Some bound →
    ∃ matched mm,
      chosen registry oldLock name "" matched mm ∧
      bound = {| top_url := d_tarball (m_dist mm); top_version := matched |} ∧
      obj_get (lockKey name "") (newLock st) = Some (lockEntry_of matched mm).

(** The frame pushed at lines 80-84. *)
Definition frame_of (name matched : string) (mm : VersionManifest) : Frame :=
  {| f_name := name; f_version := matched;
     f_dependencies := default [] (m_dependencies mm) |}.

(** The manifest that [getItem] makes up for a locked entry. *)
Definition synthetic (item : LockEntry) : Manifest :=
  [(l_version item,
    {| m_dependencies := Some (l_dependencies item);
       m_dist := {| d_shasum := l_shasum item; d_tarball := l_url item |} |})].

(** A value for the driver: the caret of the version chosen for an entry of
    the field with the empty range. *)
Definition signalled `{Semver} (registry : gmap string Manifest)
    (oldLock : gmap string LockEntry) (deps : DependenciesMap)
    (item : string * string) : Prop :=
  (item.1, "") ∈ deps ∧
  ∃ matched mm,
    chosen registry oldLock item.1 "" matched mm ∧
    item.2 = "^" +:+ matched.

(** The pending root calls are entries of the field and the values for the
    driver are carets of chosen versions. *)
Definition root_signals `{Semver} (registry : gmap string Manifest)
    (oldLock : gmap string LockEntry) (deps : DependenciesMap)
    (st : State) : Prop :=
  Forall (λ t, t_root t = true → (t_name t, t_constraint t) ∈ deps)
         (pending st) ∧
  Forall (signalled registry oldLock deps) (returned st).

(** ** Writing the lock (lines 188-193) *)

#[local] Set Warnings "-register-all".

(** The documents handed to [yaml.dump]: scalars and mappings whose entries
    are dumped in the order in which they are listed. *)
Inductive Yaml :=
  | YStr (s : string)
  | YMap (entries : list (string * Yaml)).

(** The order of two entries is the order of their keys. *)
Definition key_le {V} : relation (string * V) := λ p q, String.le p.1 q.1.

Global Instance key_le_dec {V} : RelDecision (@key_le V).
Proof. intros p q. unfold key_le. apply _. Defined.

Definition sortEntries {V} (o : JsObject V) : JsObject V :=
  merge_sort key_le o.

(** Modelled from the spec: [utils.sortKeys] is not part of the sources.
    Sections 4.2 and 6 of the specification have the lock serialized with
    its keys, and the keys of its nested maps, in sorted order. *)
Fixpoint sortKeys (y : Yaml) : Yaml :=
  match y with
  | YStr s => YStr s
  | YMap entries =>
      YMap (sortEntries (map (λ p, (p.1, sortKeys p.2)) entries))
  end.

(** A lock entry as the object built by [Object.assign]: its fields in the
    order of the literal of lines 73-76, its dependencies in their own
    order. *)
Definition entryYaml (e : LockEntry) : Yaml :=
  YMap [("version", YStr (l_version e));
        ("url", YStr (l_url e));
        ("shasum", YStr (l_shasum e));
        ("dependencies",
         YMap (map (λ p, (p.1, YStr p.2)) (l_dependencies e)))].

Definition lockYaml (lock : JsObject LockEntry) : Yaml :=
  YMap (map (λ p, (p.1, entryYaml p.2)) lock).

(** [yaml.dump(utils.sortKeys(newLock), { noRefs: true })]: the text written
    to the lock file, for a dumper [dump]. *)
Definition writeLock (dump : Yaml → string) (newLock : JsObject LockEntry)
    : string :=
  dump (sortKeys (lockYaml newLock)).

(** Two entries with the same fields and the same dependencies, listed in
    any order. *)
Definition same_entry (e1 e2 : LockEntry) : Prop :=
  l_version e1 = l_version e2 ∧ l_url e1 = l_url e2 ∧
  l_shasum e1 = l_shasum e2 ∧ l_dependencies e1 ≡ₚ l_dependencies e2.

(** Two locks that hold the same entries, inserted in any order. *)
Definition same_contents (lock1 lock2 : JsObject LockEntry) : Prop :=
  ∃ lock1', lock1 ≡ₚ lock1' ∧
    Forall2 (λ p q, p.1 = q.1 ∧ same_entry p.2 q.2) lock1' lock2.

(** A JS object has one entry per key. *)
Definition lock_object (lock : JsObject LockEntry) : Prop :=
  NoDup (obj_keys lock) ∧
  Forall (λ p, NoDup (obj_keys (l_dependencies p.2))) lock.

(** ** A measure of the calls still to be made *)

Section Measure.
Context `{Semver}.
Variable registry : gmap string Manifest.
Variable oldLock : gmap string LockEntry.

(** The [dependencies] objects that a call can read: those of the versions
    listed by the registry and those of the entries of the old lock. *)
Definition dependencyObjects : list (list (string * string)) :=
  (map_to_list registry ≫=
     λ entry, (λ v, default [] (m_dependencies v.2)) <$> entry.2) ++
  ((λ entry, l_dependencies entry.2) <$> map_to_list oldLock).

(** The demands [(dep, range)] that a call can make. *)
Definition demands : list (string * string) := mjoin dependencyObjects.

(** The largest number of dependencies of a version. *)
Definition fanout : nat := max_list (length <$> dependencyObjects).

(** The version chosen for each demand satisfies the range of the demand.
    A version is chosen for the empty range only: the condition is that the
    last version of the manifest satisfies the empty range, which a
    prerelease does not. *)
Definition coherent : bool :=
  forallb (λ d,
    match acquireManifest registry oldLock d.1 d.2 with
    | Some manifest =>
        match chooseVersion manifest d.2 with
        | inr matched => satisfies matched d.2
        | inl _ => true
        end
    | None => true
    end) demands.

(** The demands that [hasCirculation] still lets through on a stack. *)
Definition open (stack : DependencyStack) : nat :=
  length (filter (λ d, hasCirculation d.1 d.2 stack = false) demands).

(** A bound on the calls below a call made while [n] demands are open. *)
Fixpoint budget (n : nat) : nat :=
  match n with
  | O => 1%nat
  | S k => (1 + fanout * budget k)%nat
  end.

(** Whether the demand of a pending call is among the open ones. *)
Definition counts (stack : DependencyStack) (t : Task) : bool :=
  bool_decide ((t_name t, t_constraint t) ∈ demands) &&
  negb (hasCirculation (t_name t) (t_constraint t) stack).

Definition weight_on (stack : DependencyStack) (t : Task) : nat :=
  (1 + fanout * budget (open stack - (if counts stack t then 1 else 0)))%nat.

Definition weight (st : State) (t : Task) : nat :=
  weight_on (stack_of st (t_stack t)) t.

Definition measure (st : State) : nat :=
  sum_list_with (weight st) (pending st).

End Measure.

(** ** Concrete registries *)

Module Examples.

Definition published (name version : string) (deps : DependenciesMap)
    : string * VersionManifest :=
  (version,
   {| m_dependencies := Some deps;
      m_dist := {| d_shasum := "sha1-" +:+ name +:+ "-" +:+ version;
                   d_tarball := "https://registry/" +:+ name +:+ "/-/"
                                +:+ name +:+ "-" +:+ version +:+ ".tgz" |} |}).

Definition frame (name version : string) (deps : DependenciesMap) : Frame :=
  {| f_name := name; f_version := version; f_dependencies := deps |}.

Definition manifest_of (dependencies devDependencies : DependenciesMap)
    : PackageJson :=
  {| pj_dependencies := Some dependencies;
     pj_devDependencies := Some devDependencies |}.

(** [listDefault] on the semver fragment, from the initial module state. *)
Definition install (registry : gmap string Manifest)
    (oldLock : gmap string LockEntry) (fuel : nat) (root : PackageJson)
    : Outcome (PackageJson * State) :=
  @listDefault NodeSemver.semver registry oldLock fuel root initial.

(** The plan and the new lock of a finished run. *)
Definition plan (o : Outcome (PackageJson * State))
    : option (list (string * TopEntry) * list (JsObject string)
              * JsObject LockEntry) :=
  match o with
  | Resolved (_, st) =>
      Some (map_to_list (topLevel st), unsatisfied st, newLock st)
  | _ => None
  end.

(** The registries list their dependencies with the empty range, the only
    one with which a call gets past line 40. *)

(** A chain [A -> B -> C -> D], with [D] also a direct dependency. *)
Definition chain : gmap string Manifest :=
  list_to_map
    [("A", [published "A" "1.0.0" [("B", "")]]);
     ("B", [published "B" "1.0.0" [("C", "")]]);
     ("C", [published "C" "1.0.0" [("D", "")]]);
     ("D", [published "D" "1.0.0" []])].

(** One package with two major versions. *)
Definition two_majors : gmap string Manifest :=
  list_to_map
    [("A", [published "A" "1.0.0" []; published "A" "2.0.0" []])].

(** One package whose only version is a prerelease. *)
Definition prerelease_only : gmap string Manifest :=
  list_to_map [("A", [published "A" "1.0.0-beta" []])].

(** Scenario S1 of the specification: a compatible diamond. *)
Definition diamond : gmap string Manifest :=
  list_to_map
    [("A", [published "A" "1.0.0" [("C", "")]]);
     ("B", [published "B" "1.0.0" [("C", "")]]);
     ("C", [published "C" "1.0.0" []; published "C" "1.1.0" []])].

(** Scenario S3 of the specification, a mutual cycle, and a package that
    depends on itself. *)
Definition cycle : gmap string Manifest :=
  list_to_map
    [("A", [published "A" "1.0.0" [("B", "")]]);
     ("B", [published "B" "1.0.0" [("A", "")]]);
     ("S", [published "S" "1.0.0" [("S", "")]])].

(** A package whose only version is a prerelease and which depends on
    itself with an empty range. *)
Definition prerelease_loop : gmap string Manifest :=
  list_to_map [("P", [published "P" "1.0.0-beta" [("P", "")]])].

Definition prerelease_manifest : VersionManifest :=
  (published "P" "1.0.0-beta" [("P", "")]).2.

(** The call that this package makes for itself. *)
Definition self_call : Task :=
  {| t_name := "P"; t_constraint := "";
     t_stack := 0; t_root := false |}.

(** The states of a run on [prerelease_loop] after the root call: the self
    call is pending, [P] is bound at the top level and every frame of the
    stack carries the prerelease. *)
Definition looping (st : State) : Prop :=
  pending st = [self_call] ∧
  (∃ url, topLevel st !! "P" =
            Some {| top_url := url; top_version := "1.0.0-beta" |}) ∧
  stack_of st 0 ≠ [] ∧
  Forall (λ fr, f_version fr = "1.0.0-beta") (stack_of st 0).

(** A root call, as the default export makes it. *)
Definition rootCall (name constraint : string) (ref : nat) : Task :=
  {| t_name := name; t_constraint := constraint;
     t_stack := ref; t_root := true |}.

(** The state after the body of a call has run. *)
Definition after (registry : gmap string Manifest)
    (oldLock : gmap string LockEntry) (t : Task) (st : State) : State :=
  match @collectDeps NodeSemver.semver registry oldLock t st with
  | inr st' => st'
  | inl _ => st
  end.

(** The state in which [run] leaves the module. *)
Definition finish (registry : gmap string Manifest)
    (oldLock : gmap string LockEntry) (fuel : nat) (st : State) : State :=
  match @run NodeSemver.semver registry oldLock fuel st with
  | Resolved st' => st'
  | _ => st
  end.

(** Scenario S5 of the specification: [A@^1.0.0] is locked at 1.2.3. *)
Definition locked_item : LockEntry :=
  {| l_version := "1.2.3";
     l_url := "https://registry/A/-/A-1.2.3.tgz";
     l_shasum := "sha1-A-1.2.3";
     l_dependencies := [] |}.

Definition lock_s5 : gmap string LockEntry :=
  {["A@^1.0.0" := locked_item]}.

Definition registry_s5 : gmap string Manifest :=
  list_to_map
    [("A", [published "A" "1.2.3" []; published "A" "1.4.0" []])].

(** A lock that answers the demand of [A] with the empty range. *)
Definition lock_empty_range : gmap string LockEntry :=
  {["A@" := locked_item]}.

(** Two locks with the same entries, inserted in different orders. *)
Definition entry_a (deps : DependenciesMap) : LockEntry :=
  {| l_version := "1.0.0";
     l_url := "https://registry/A/-/A-1.0.0.tgz";
     l_shasum := "sha1-A-1.0.0";
     l_dependencies := deps |}.

Definition entry_b : LockEntry :=
  {| l_version := "1.0.0";
     l_url := "https://registry/B/-/B-1.0.0.tgz";
     l_shasum := "sha1-B-1.0.0";
     l_dependencies := [] |}.

Definition lock_ba : JsObject LockEntry :=
  [("B@^1.0.0", entry_b);
   ("A@^1.0.0", entry_a [("D", "^1.0.0"); ("C", "^1.0.0")])].

Definition lock_ab : JsObject LockEntry :=
  [("A@^1.0.0", entry_a [("C", "^1.0.0"); ("D", "^1.0.0")]);
   ("B@^1.0.0", entry_b)].

(** A dumper that writes one [key: value] per line. *)
Fixpoint dump_lines (indent : string) (y : Yaml) : string :=
  match y with
  | YStr s => s
  | YMap entries =>
      String.concat ""
        (map (λ p,
                indent +:+ p.1 +:+ ":" +:+
                match p.2 with
                | YStr s => " " +:+ s +:+ "\n"
                | YMap _ => "\n" +:+ dump_lines ("  " +:+ indent) p.2
                end) entries)
  end.

End Examples.

(** ** Reading the lock (lines 195-199) *)

(** [Object.assign(oldLock, loaded)]: the entries of [loaded] are written in
    their order, over the entries that [oldLock] has under the same keys. *)
Definition assignLock (loaded : JsObject LockEntry)
    (oldLock : gmap string LockEntry) : gmap string LockEntry :=
  fold_left (λ lock entry, <[entry.1 := entry.2]> lock) loaded oldLock.

(** [readLock]: [file] is the document that [yaml.load] makes of the lock
    file, when [fs.pathExists] finds one. *)
Definition readLock (file : option (JsObject LockEntry))
    (oldLock : gmap string LockEntry) : gmap string LockEntry :=
  match file with
  | Some loaded => assignLock loaded oldLock
  | None => oldLock
  end.

(** ** The front end (index.ts) *)

(** The arguments that the front end reads: [args._], [args["save-dev"]],
    [args.dev] and [args.production]. *)
Record Args := {
  a_positional : list string;
  a_save_dev : bool;
  a_dev : bool;
  a_production : bool
}.

(** [additionalPackages.forEach((pkg) => (field[pkg] = ""))] *)
Definition addPackages (additionalPackages : list string)
    (field : DependenciesMap) : DependenciesMap :=
  fold_left (λ o pkg, obj_set pkg "" o) additionalPackages field.

(** Lines 8-23 of index.ts: the packages named on the command line are added
    to the manifest, then [--production] deletes [devDependencies].  Both
    branches of line 10 write into [root.devDependencies]; the second one
    has only made sure that [root.dependencies] is an object, and throws
    when [root.devDependencies] is [undefined]. *)
Definition prepareManifest (args : Args) (root : PackageJson)
    : Failure + PackageJson :=
  let additionalPackages := slice 1 (a_positional args) in
  let added :=
    match additionalPackages with
    | [] => inr root
    | _ :: _ =>
        if a_save_dev args || a_dev args then
          inr {| pj_dependencies := pj_dependencies root;
                 pj_devDependencies :=
                   Some (addPackages additionalPackages
                           (default [] (pj_devDependencies root))) |}
        else
          match pj_devDependencies root with
          | None => inl TypeError
          | Some devDependencies =>
              inr {| pj_dependencies :=
                       Some (default [] (pj_dependencies root));
                     pj_devDependencies :=
                       Some (addPackages additionalPackages devDependencies) |}
          end
    end in
  match added with
  | inl e => inl e
  | inr root' =>
      inr (if a_production args
           then {| pj_dependencies := pj_dependencies root';
                   pj_devDependencies := None |}
           else root')
  end.

(** Line 31 of index.ts: the number handed to [log.prepareInstall]. *)
Definition installCount (st : State) : nat :=
  (size (topLevel st) + length (unsatisfied st))%nat.

(** ** What the plan and the new lock record *)

Section Records.
Context `{Semver}.
Variable registry : gmap string Manifest.
Variable oldLock : gmap string LockEntry.

Local Abbreviation chosen := (chosen registry oldLock).

(** An entry of the new lock: the record of a choice, under its key. *)
Definition recorded (entry : string * LockEntry) : Prop :=
  ∃ name constraint matched mm,
    chosen name constraint matched mm ∧
    entry.1 = lockKey name constraint ∧
    entry.2 = lockEntry_of matched mm.

(** A top-level binding: the version chosen for a demand of the name, with
    its tarball. *)
Definition bound_to_choice (name : string) (top : TopEntry) : Prop :=
  ∃ constraint mm,
    chosen name constraint (top_version top) mm ∧
    top_url top = d_tarball (m_dist mm).

(** A frame: the version chosen for a demand of the name, with its
    dependencies. *)
Definition frame_of_choice (fr : Frame) : Prop :=
  ∃ constraint mm,
    chosen (f_name fr) constraint (f_version fr) mm ∧
    f_dependencies fr = default [] (m_dependencies mm).

(** The bindings of [topLevel] and the frames of the stack arrays carry
    chosen versions. *)
Definition plan_of_choices (st : State) : Prop :=
  map_Forall bound_to_choice (topLevel st) ∧
  ∀ ref, Forall frame_of_choice (stack_of st ref).

End Records.

(** Every pending call made by a call has a frame on its stack array. *)
Definition nested_on_frames (st : State) : Prop :=
  Forall (λ t, t_root t = false → stack_of st (t_stack t) ≠ []) (pending st).

(** The references of the stack arrays of the pending root calls. *)
Definition rootRefs (calls : list Task) : list nat :=
  t_stack <$> filter (λ t, t_root t = true) calls.

(** The pending root calls have an empty stack array each, and no two of
    them the same one. *)
Definition roots_apart (st : State) : Prop :=
  Forall (λ t, t_root t = true → stack_of st (t_stack t) = []) (pending st) ∧
  NoDup (rootRefs (pending st)).

(** The names of the pending root calls. *)
Definition rootNames (calls : list Task) : list string :=
  t_name <$> filter (λ t, t_root t = true) calls.

(** No name has two root calls, or a root call and a value for the driver:
    the root calls of a field are made for the keys of an object. *)
Definition roots_once (st : State) : Prop :=
  NoDup ((returned st).*1 ++ rootNames (pending st)).

(** Some pending call has a non-empty range. *)
Definition blocked (st : State) : Prop :=
  Exists (λ t, truthy (t_constraint t) = true) (pending st).

(** Two module states that differ at most in what the resolver writes for
    later: the new lock, [unsatisfied] and the values for the driver. *)
Definition same_view (st1 st2 : State) : Prop :=
  topLevel st1 = topLevel st2 ∧ stacks st1 = stacks st2 ∧
  pending st1 = pending st2.

(** The same outcome, up to what the resolver writes for later. *)
Definition same_outcome {E} (o1 o2 : E + State) : Prop :=
  match o1, o2 with
  | inl e1, inl e2 => e1 = e2
  | inr st1, inr st2 => same_view st1 st2
  | _, _ => False
  end.

Definition same_result (o1 o2 : Outcome State) : Prop :=
  match o1, o2 with
  | OutOfFuel, OutOfFuel => True
  | Rejected e1, Rejected e2 => e1 = e2
  | Resolved st1, Resolved st2 => same_view st1 st2
  | _, _ => False
  end.

(** A string without [@]. *)
Fixpoint no_at (s : string) : bool :=
  match s with
  | EmptyString => true
  | String c s' => negb (Ascii.eqb c "@"%char) && no_at s'
  end.

(** ** Schedules *)

Section Schedules.
Context `{Semver}.
Variable registry : gmap string Manifest.
Variable oldLock : gmap string LockEntry.

(** The body of the pending call number [i] runs, when there is one and it
    completes. *)
Definition runBody (i : nat) (st : State) : State :=
  match pending st !! i with
  | Some t =>
      match collectDeps registry oldLock t
              (with_pending (delete i (pending st)) st) with
      | inr st' => st'
      | inl _ => st
      end
  | None => st
  end.

(** The bodies run in the order that [order] gives. *)
Definition runBodies (order : list nat) (st : State) : State :=
  fold_left (λ st i, runBody i st) order st.

End Schedules.

Module Scenarios.

(** [A] depends on [B] and [C], which both depend on [D]; the project
    itself depends on [D] and on [A]. *)
Definition siblings : gmap string Manifest :=
  list_to_map
    [("A", [Examples.published "A" "1.0.0" [("B", ""); ("C", "")]]);
     ("B", [Examples.published "B" "1.0.0" [("D", "")]]);
     ("C", [Examples.published "C" "1.0.0" [("D", "")]]);
     ("D", [Examples.published "D" "1.0.0" []])].

(** The same packages, when the only version of [D] is a prerelease: the
    top-level [D] then satisfies no demand. *)
Definition siblings_prerelease : gmap string Manifest :=
  list_to_map
    [("A", [Examples.published "A" "1.0.0" [("B", ""); ("C", "")]]);
     ("B", [Examples.published "B" "1.0.0" [("D", "")]]);
     ("C", [Examples.published "C" "1.0.0" [("D", "")]]);
     ("D", [Examples.published "D" "1.0.0-beta" []])].

Definition siblings_roots : DependenciesMap := [("D", ""); ("A", "")].

(** The bodies in the order of the calls, each call before its siblings
    (the order when every manifest is at hand). *)
Definition depth_first : list nat := [0; 0; 0; 0; 0]%nat.

(** The stack and the top level of the chain [A -> B -> C -> D] when the
    demand of [C] for [D] is placed. *)
Definition chain_stack : DependencyStack :=
  [Examples.frame "A" "1.0.0" [("B", "")];
   Examples.frame "B" "1.0.0" [("C", "")];
   Examples.frame "C" "1.0.0" [("D", "")]].

Definition chain_top : gmap string TopEntry :=
  {["D" := {| top_url := "https://registry/D/-/D-1.0.0.tgz";
              top_version := "1.0.0" |}]}.

(** A lock file that lists two entries. *)
Definition lock_file : JsObject LockEntry :=
  [("A@", Examples.entry_a [("B", "")]);
   ("B@", Examples.entry_b)].

(** A project with three dependencies and no [devDependencies]. *)
Definition three_roots : PackageJson :=
  {| pj_dependencies := Some [("B", ""); ("D", ""); ("A", "")];
     pj_devDependencies := None |}.

End Scenarios.

(** * Properties *)

(** ** JavaScript helpers *)

Lemma findIndex_range {A} (p : A → bool) (l : list A) :
  -1 ≤ findIndex p l < Z.of_nat (length l).
Proof.
  induction l as [|x l IH]; simpl; [lia|].
  destruct (p x); [lia|].
  destruct (Z.eqb_spec (findIndex p l) (-1)); lia.
Qed.

Lemma findIndex_none {A} (p : A → bool) (l : list A) :
  findIndex p l = -1 ↔ Forall (λ x, p x = false) l.
Proof.
  induction l as [|x l IH]; simpl.
  - split; [constructor | reflexivity].
  - destruct (p x) eqn:Hp.
    + split; [lia | intros Hall; inversion Hall; congruence].
    + pose proof (findIndex_range p l) as Hr.
      destruct (Z.eqb_spec (findIndex p l) (-1)) as [He|Hne].
      * split; [|reflexivity]. intros _. constructor; [exact Hp | by apply IH].
      * split; [lia|]. intros Hall. inversion Hall; subst. tauto.
Qed.

Lemma findIndex_first {A} (p : A → bool) (l : list A) (i : nat) :
  findIndex p l = Z.of_nat i ↔
  (∃ x, l !! i = Some x ∧ p x = true) ∧
  (∀ j y, (j < i)%nat → l !! j = Some y → p y = false).
Proof.
  revert i. induction l as [|x l IH]; intros i; simpl.
  - split; [lia | intros [[y [Hy _]] _]; destruct i; discriminate].
  - destruct (p x) eqn:Hp.
    + split.
      * intros Hi. assert (i = 0%nat) as -> by lia.
        split; [eauto | intros; lia].
      * intros [_ Hmin]. destruct i as [|i]; [reflexivity|].
        specialize (Hmin 0%nat x ltac:(lia) eq_refl). congruence.
    + pose proof (findIndex_range p l) as Hr.
      destruct (Z.eqb_spec (findIndex p l) (-1)) as [He|Hne].
      * split; [lia|]. intros [[y [Hy Hpy]] _].
        destruct i as [|i]; simpl in Hy; [congruence|].
        apply findIndex_none in He.
        rewrite Forall_forall in He.
        apply list_elem_of_lookup_2, He in Hy. congruence.
      * destruct i as [|i].
        { split; [lia|]. intros [[y [Hy Hpy]] _]. simpl in Hy. congruence. }
        specialize (IH i). split.
        -- intros Hi. assert (findIndex p l = Z.of_nat i) as Hi' by lia.
           apply IH in Hi' as [Hex Hmin]. split; [exact Hex|].
           intros [|j] y Hj Hy; simpl in Hy; [congruence|].
           apply (Hmin j y); [lia | exact Hy].
        -- intros [Hex Hmin].
           assert (findIndex p l = Z.of_nat i) as Hi'; [|lia].
           apply IH. split; [exact Hex|].
           intros j y Hj Hy. apply (Hmin (S j) y); [lia | exact Hy].
Qed.

Lemma slice_nonneg {A} (k : nat) (l : list A) :
  slice (Z.of_nat k) l = drop k l.
Proof.
  unfold slice.
  destruct (Z.ltb_spec (Z.of_nat k) 0) as [Hneg|_]; [lia|].
  destruct (decide (k ≤ length l)%nat) as [Hle|Hgt].
  - f_equal. lia.
  - rewrite (drop_ge l k) by lia. apply drop_ge. lia.
Qed.

Lemma slice_negative {A} (k : nat) (l : list A) :
  (0 < k)%nat →
  slice (- Z.of_nat k) l = drop (length l - k) l.
Proof.
  intros Hk. unfold slice.
  destruct (Z.ltb_spec (- Z.of_nat k) 0) as [_|Hge]; [|lia].
  f_equal. lia.
Qed.

(** ** The conflict scan *)

Section ScanFacts.
Context `{Semver}.

(** What the source computes: the index of the first compatible frame. *)
Lemma checkStackDependencies_first_compatible name version stack (i : nat) :
  checkStackDependencies name version stack = Z.of_nat i ↔
  (∃ fr, stack !! i = Some fr ∧ compatible_frame name version fr = true) ∧
  (∀ j fr, (j < i)%nat → stack !! j = Some fr →
           compatible_frame name version fr = false).
Proof. apply findIndex_first. Qed.

Lemma checkStackDependencies_none name version stack :
  checkStackDependencies name version stack = -1 ↔
  Forall (λ fr, compatible_frame name version fr = false) stack.
Proof. apply findIndex_none. Qed.

End ScanFacts.

(** C1 (defect of the source).  On a one-frame stack whose frame depends on
    [C] with a range that [2.0.0] does not satisfy, the scan of the
    specification reports the conflict at index 0 while
    [checkStackDependencies] returns -1; on a frame that is silent about [C]
    the specification gives -1 and [checkStackDependencies] returns 0. *)
Theorem checkStackDependencies_reports_compatible_frames :
  let conflicting := [Examples.frame "A" "1.0.0" [("C", "^1.0.0")]] in
  let silent := [Examples.frame "A" "1.0.0" []] in
  @checkStackDependencies NodeSemver.semver "C" "2.0.0" conflicting = -1 ∧
  @conflictScan_spec NodeSemver.semver "C" "2.0.0" conflicting = 0 ∧
  @checkStackDependencies NodeSemver.semver "C" "2.0.0" silent = 0 ∧
  @conflictScan_spec NodeSemver.semver "C" "2.0.0" silent = -1.
Proof. vm_compute. repeat split. Qed.

(** ** The placement decision *)

Section PlacementFacts.
Context `{Semver}.

(** From a conflict index of two or more, [slice] starts at a frame of the
    stack and the recorded parent is the path of the specification. *)
Lemma parent_from_two_above (i : Z) (stack : DependencyStack) :
  2 ≤ i →
  join "/node_modules/" (slice (i - 2) (map f_name stack)) =
  parentPath_spec i stack.
Proof.
  intros Hi. unfold parentPath_spec.
  rewrite <- (Z2Nat.id (i - 2)) at 1 by lia.
  by rewrite slice_nonneg.
Qed.

(** Below two, [slice] receives a negative start and keeps the last
    [2 - i] names instead. *)
Lemma parent_below_two (i : Z) (stack : DependencyStack) :
  0 ≤ i < 2 →
  slice (i - 2) (map f_name stack) =
  drop (length stack - Z.to_nat (2 - i)) (map f_name stack).
Proof.
  intros Hi.
  replace (i - 2) with (- Z.of_nat (Z.to_nat (2 - i))) by lia.
  rewrite slice_negative by lia. by rewrite length_map.
Qed.

(** The last branch reads [stack.at(-1)!.name]: on an empty stack it throws. *)
Lemma placement_incompatible_empty_stack name constraint matched top bound :
  top !! name = Some bound →
  satisfies (top_version bound) constraint = false →
  placement name constraint matched [] top = inl TypeError.
Proof. intros Hb Hs. unfold placement. by rewrite Hb, Hs. Qed.

End PlacementFacts.

(** C2 (defect of the source).  [D] is a dependency of the project and [A],
    the head of the chain [A -> B -> C -> D], a development dependency; every
    range is empty.  When the demand of [C] for [D] is placed, the stack is
    [A; B; C], the top-level [D] satisfies the range and the scan returns
    index 0: the recorded parent is ["B/node_modules/C"], the last two names,
    and not the names from the first frame on. *)
Theorem nested_parent_wraps_around_below_two :
  let stack :=
    [Examples.frame "A" "1.0.0" [("B", "")];
     Examples.frame "B" "1.0.0" [("C", "")];
     Examples.frame "C" "1.0.0" [("D", "")]] in
  let top : gmap string TopEntry :=
    {["D" := {| top_url := "https://registry/D/-/D-1.0.0.tgz";
                top_version := "1.0.0" |}]} in
  @checkStackDependencies NodeSemver.semver "D" "1.0.0" stack = 0 ∧
  @placement NodeSemver.semver "D" "" "1.0.0" stack top =
    inr (PlaceUnderConflict 0 "B/node_modules/C") ∧
  parentPath_spec 0 stack = "A/node_modules/B/node_modules/C" ∧
  snd <$> (fst <$> Examples.plan
    (Examples.install Examples.chain ∅ 8
       (Examples.manifest_of [("D", "")] [("A", "")]))) =
    Some [[("name", "D"); ("parent", "B/node_modules/C");
           ("url", "https://registry/D/-/D-1.0.0.tgz")]].
Proof. vm_compute. repeat split. Qed.

(** C10 (defect of the source).  The only version of [A] is a prerelease,
    and [A] is listed with the empty range in [dependencies] and in
    [devDependencies].  The first root call binds [A] to 1.0.0-beta.  The
    second one finds that binding, which does not satisfy the empty range,
    and reads the last frame of its empty stack at line 65: the run is
    rejected with a [TypeError]. *)
Theorem incompatible_root_demand_reads_empty_stack :
  let top : gmap string TopEntry :=
    {["A" := {| top_url := "https://registry/A/-/A-1.0.0-beta.tgz";
                top_version := "1.0.0-beta" |}]} in
  Examples.plan
    (Examples.install Examples.prerelease_only ∅ 8
       (Examples.manifest_of [("A", "")] [])) =
    Some (map_to_list top, [],
          [("A@", lockEntry_of "1.0.0-beta"
                    (Examples.published "A" "1.0.0-beta" []).2)]) ∧
  @satisfies NodeSemver.semver "1.0.0-beta" "" = false ∧
  @placement NodeSemver.semver "A" "" "1.0.0-beta" [] top = inl TypeError ∧
  Examples.install Examples.prerelease_only ∅ 8
    (Examples.manifest_of [("A", "")] [("A", "")]) =
    Rejected TypeError.
Proof. vm_compute. repeat split. Qed.

(** ** One call of [collectDeps] *)

Lemma obj_get_set_eq {V} (k : string) (v : V) (o : JsObject V) :
  obj_get k (obj_set k v o) = Some v.
Proof.
  induction o as [|[k' v'] o IH]; simpl.
  - by rewrite String.eqb_refl.
  - destruct (String.eqb k' k) eqn:E; simpl; rewrite E; [done | exact IH].
Qed.

Lemma obj_get_set_ne {V} (k k' : string) (v : V) (o : JsObject V) :
  k ≠ k' → obj_get k' (obj_set k v o) = obj_get k' o.
Proof.
  intros Hne. induction o as [|[k0 v0] o IH]; simpl.
  - destruct (String.eqb_spec k k'); [done | reflexivity].
  - destruct (String.eqb_spec k0 k) as [->|Hk0]; simpl.
    + destruct (String.eqb_spec k k'); [done | reflexivity].
    + destruct (String.eqb_spec k0 k'); [reflexivity | exact IH].
Qed.

Lemma obj_get_keys {V} (k : string) (o : JsObject V) :
  is_Some (obj_get k o) ↔ k ∈ obj_keys o.
Proof.
  induction o as [|[k' v] o IH]; simpl.
  - split; [by intros [? ?] | by inversion 1].
  - destruct (String.eqb_spec k' k) as [->|Hne].
    + split; [intros _; by left | by eexists].
    + rewrite IH. split; [by right|].
      intros [?|?]%elem_of_cons; [congruence | done].
Qed.

Lemma rewriteRanges_snoc items name version deps :
  rewriteRanges (items ++ [(name, version)]) deps =
  obj_set name version (rewriteRanges items deps).
Proof. unfold rewriteRanges. by rewrite fold_left_app. Qed.

Lemma rewriteRanges_other items name deps :
  name ∉ items.*1 →
  obj_get name (rewriteRanges items deps) = obj_get name deps.
Proof.
  induction items as [|[n v] items IH] using rev_ind; [done|].
  rewrite fmap_app, elem_of_app, rewriteRanges_snoc. simpl.
  intros Hnot. rewrite obj_get_set_ne.
  - apply IH. tauto.
  - intros ->. apply Hnot. right. by left.
Qed.

Lemma rewriteRanges_same items name version deps :
  (name, version) ∈ items →
  (∀ other, (name, other) ∈ items → other = version) →
  obj_get name (rewriteRanges items deps) = Some version.
Proof.
  induction items as [|[n v] items IH] using rev_ind; [by inversion 1|].
  intros Hin Hsame. rewrite rewriteRanges_snoc.
  destruct (decide (n = name)) as [->|Hne].
  - rewrite (Hsame v) by (apply elem_of_app; right; by left).
    apply obj_get_set_eq.
  - rewrite obj_get_set_ne by done.
    apply elem_of_app in Hin as [Hin|Hin%list_elem_of_singleton];
      [|congruence].
    apply IH; [done|]. intros other Ho. apply Hsame, elem_of_app. by left.
Qed.

Section StepFacts.
Context `{Semver}.
Variable registry : gmap string Manifest.
Variable oldLock : gmap string LockEntry.

Local Abbreviation Acquire := (acquireManifest registry oldLock).
Local Abbreviation Collect := (collectDeps registry oldLock).
Local Abbreviation Step := (step registry oldLock).
Local Abbreviation Progress := (progress registry oldLock).

(** A call that returns has acquired a manifest, chosen a version listed in
    it and decided a placement; it stops there when the demand is covered. *)
Lemma collectDeps_inv t st st' :
  Collect t st = inr st' →
  ∃ manifest matched mm p,
    Acquire (t_name t) (t_constraint t) = Some manifest ∧
    chooseVersion manifest (t_constraint t) = inr matched ∧
    obj_get matched manifest = Some mm ∧
    placement (t_name t) (t_constraint t) matched
      (stack_of st (t_stack t)) (topLevel st) = inr p ∧
    st' = match p with
          | PlaceCovered => st
          | _ => recordAndDescend t matched mm p st
          end.
Proof.
  unfold collectDeps. intros Hc.
  destruct (Acquire _ _) as [manifest|] eqn:Ha; [|discriminate].
  destruct (chooseVersion _ _) as [e|matched] eqn:Hv; [discriminate|].
  destruct (obj_get matched manifest) as [mm|] eqn:Hm; [|discriminate].
  destruct (placement _ _ _ _ _) as [e|p] eqn:Hp; [discriminate|].
  exists manifest, matched, mm, p.
  destruct p; injection Hc as <-; done.
Qed.

(** A version is chosen for the empty range only: it is the last key of the
    manifest. *)
Lemma chooseVersion_inr manifest constraint matched :
  chooseVersion manifest constraint = inr matched →
  constraint = "" ∧ last (obj_keys manifest) = Some matched.
Proof.
  unfold chooseVersion, truthy.
  destruct (String.eqb_spec constraint "") as [->|]; simpl; [|done].
  destruct (last _) as [v|]; [|done].
  destruct (negb _); [|done]. by intros [= ->].
Qed.

(** A call whose body completes was made with the empty range. *)
Lemma collectDeps_empty_range t st st' :
  Collect t st = inr st' → t_constraint t = "".
Proof.
  intros (manifest & matched & mm & p & _ & Hv & _)%collectDeps_inv.
  by apply chooseVersion_inr in Hv as [? _].
Qed.

(** The schedule of [run] is one of the schedules of [step]. *)
Lemma run_schedule fuel st st' :
  run registry oldLock fuel st = Resolved st' →
  rtc Step st st' ∧ pending st' = [].
Proof.
  revert st. induction fuel as [|fuel IH]; intros st; simpl;
    destruct (pending st) as [|t rest] eqn:Hp; try discriminate.
  - intros [= <-]. by split.
  - intros [= <-]. by split.
  - destruct (Collect t _) as [e|st1] eqn:Hc; [discriminate|].
    intros [Hrun Hdone]%IH. split; [|done].
    eapply rtc_l; [|exact Hrun].
    exists 0%nat, t. rewrite Hp. by split.
Qed.

Lemma placement_top_iff name constraint matched stack top :
  placement name constraint matched stack top = inr PlaceTop ↔
  top !! name = None.
Proof.
  unfold placement. destruct (top !! name) as [bound|]; [|done].
  split; [|done].
  destruct (satisfies _ _).
  - destruct (_ =? _); discriminate.
  - destruct (last stack); discriminate.
Qed.

Lemma collectDeps_topLevel t st st' name bound :
  Collect t st = inr st' →
  topLevel st !! name = Some bound →
  topLevel st' !! name = Some bound.
Proof.
  intros (manifest & matched & mm & p & _ & _ & _ & Hp & ->)%collectDeps_inv Hb.
  destruct p; simpl; try done.
  apply placement_top_iff in Hp.
  rewrite lookup_insert_ne; [done | congruence].
Qed.

Lemma step_topLevel st st' name bound :
  Step st st' →
  topLevel st !! name = Some bound → topLevel st' !! name = Some bound.
Proof. intros (i & t & _ & Hc). by apply (collectDeps_topLevel _ _ _ _ _ Hc). Qed.

Lemma collectDeps_bound_topLevel t st st' :
  is_Some (topLevel st !! t_name t) →
  Collect t st = inr st' → topLevel st' = topLevel st.
Proof.
  intros [bound Hb]
    (manifest & matched & mm & p & _ & _ & _ & Hp & ->)%collectDeps_inv.
  destruct p; try done.
  apply placement_top_iff in Hp. congruence.
Qed.

Lemma rtc_step_progress st st' : rtc Step st st' → rtc Progress st st'.
Proof.
  induction 1 as [|st st1 st' Hs _ IH]; [done|].
  eapply rtc_l; [by apply progress_call | exact IH].
Qed.

(** The default export is a run of [progress]. *)
Lemma resolveField_progress fuel field st rewritten st' :
  pending st = [] →
  resolveField registry oldLock fuel field st = Resolved (rewritten, st') →
  rtc Progress st st' ∧ pending st' = [].
Proof.
  intros Hidle. destruct field as [deps|]; simpl.
  - destruct (run _ _ _ _) as [|e|st1] eqn:Hrun; try discriminate.
    intros [= _ <-]. apply run_schedule in Hrun as [Hrun Hdone].
    split; [|done].
    eapply rtc_l; [by apply (progress_field _ _ deps)|].
    by apply rtc_step_progress.
  - intros [= _ <-]. by split.
Qed.

Lemma listDefault_progress fuel rootManifest st rewritten st' :
  pending st = [] →
  listDefault registry oldLock fuel rootManifest st =
    Resolved (rewritten, st') →
  rtc Progress st st' ∧ pending st' = [].
Proof.
  intros Hidle. unfold listDefault.
  destruct (resolveField _ _ _ (pj_dependencies _) st)
    as [|e|[dependencies st1]] eqn:H1; try discriminate.
  apply resolveField_progress in H1 as [Hrun1 Hidle1]; [|done].
  destruct (resolveField _ _ _ (pj_devDependencies _) st1)
    as [|e|[devDependencies st2]] eqn:H2; try discriminate.
  apply resolveField_progress in H2 as [Hrun2 Hidle2]; [|done].
  intros [= _ <-]. split; [|done]. by etrans.
Qed.

Lemma progress_topLevel st st' name bound :
  Progress st st' →
  topLevel st !! name = Some bound → topLevel st' !! name = Some bound.
Proof. intros [st0 st1 Hs|deps st0 _]; [by apply step_topLevel | done]. Qed.

(** C4.  Throughout a run, under any schedule, a top-level binding, once
    made, stays as it is: [topLevel] is a map from names, no later call
    overwrites a binding, and a call for a bound name never takes the branch
    that binds (it is covered or nested instead) and leaves the whole map as
    it was. *)
Theorem topLevel_first_binding_wins st st' name bound :
  rtc Progress st st' →
  topLevel st !! name = Some bound →
  topLevel st' !! name = Some bound ∧
  (∀ constraint matched stack,
     placement name constraint matched stack (topLevel st') ≠ inr PlaceTop) ∧
  (∀ t st'',
     t_name t = name → Collect t st' = inr st'' →
     topLevel st'' = topLevel st').
Proof.
  intros Hrun Hb.
  assert (topLevel st' !! name = Some bound) as Hb'.
  { induction Hrun as [|st st1 st' Hs _ IH]; [done|].
    apply IH. by apply (progress_topLevel st). }
  split; [done|]. split.
  - intros constraint matched stack Hp%placement_top_iff. congruence.
  - intros t st'' <- Hc. by apply (collectDeps_bound_topLevel t st').
Qed.

(** The choice made for a demand is a function of the demand. *)
Lemma chosen_once name constraint matched mm matched' mm' :
  chosen registry oldLock name constraint matched mm →
  chosen registry oldLock name constraint matched' mm' →
  matched' = matched ∧ mm' = mm.
Proof.
  intros (manifest & Ha & Hv & Hm) (manifest' & Ha' & Hv' & Hm').
  rewrite Ha in Ha'. injection Ha' as <-.
  rewrite Hv in Hv'. injection Hv' as <-.
  rewrite Hm in Hm'. by injection Hm' as <-.
Qed.

(** A call that returns has made its choice for the empty range. *)
Lemma collectDeps_chosen t st st' :
  Collect t st = inr st' →
  ∃ matched mm p,
    t_constraint t = "" ∧
    chosen registry oldLock (t_name t) "" matched mm ∧
    placement (t_name t) "" matched
      (stack_of st (t_stack t)) (topLevel st) = inr p ∧
    st' = match p with
          | PlaceCovered => st
          | _ => recordAndDescend t matched mm p st
          end.
Proof.
  intros (manifest & matched & mm & p & Ha & Hv & Hm & Hp & ->)%collectDeps_inv.
  pose proof (chooseVersion_inr _ _ _ Hv) as [Hc _].
  rewrite Hc in *. exists matched, mm, p.
  split; [done|]. split; [by exists manifest|]. by split.
Qed.

(** The keys of two demands with the empty range tell the names apart. *)
Lemma lockKey_empty_range name name' :
  lockKey name "" = lockKey name' "" → name' = name.
Proof.
  unfold lockKey. revert name'.
  induction name as [|c name IH]; intros [|c' name'] Heq; [done|..].
  - change (String "@" "" = String c' (name' +:+ "@")) in Heq.
    injection Heq as _ Heq. by destruct name'.
  - change (String c (name +:+ "@") = String "@" "") in Heq.
    injection Heq as _ Heq. by destruct name.
  - change (String c (name +:+ "@") = String c' (name' +:+ "@")) in Heq.
    injection Heq as -> Heq. f_equal. by apply IH.
Qed.

Local Abbreviation bound_names_locked :=
  (bound_names_locked registry oldLock).

Lemma progress_bound_names_locked st st' :
  Progress st st' → bound_names_locked st → bound_names_locked st'.
Proof.
  intros [st0 st1 (i & t & _ & Hc)|deps st0 _] Hinv; [|done].
  apply collectDeps_chosen in Hc as (matched & mm & p & Hr & Hch & Hp & ->).
  assert (bound_names_locked
            (with_pending (delete i (pending st0)) st0)) as Hrest by done.
  destruct p; [|done|..]; intros name bound Hb; simpl in Hb |- *;
    unfold updateOrCreate; rewrite Hr.
  - apply placement_top_iff in Hp.
    destruct (decide (name = t_name t)) as [->|Hne].
    + rewrite lookup_insert_eq in Hb. injection Hb as <-.
      exists matched, mm. split; [done|]. split; [done|].
      apply obj_get_set_eq.
    + rewrite lookup_insert_ne in Hb by done.
      destruct (Hinv _ _ Hb) as (m0 & mm0 & ? & ? & ?).
      exists m0, mm0. split; [done|]. split; [done|].
      rewrite obj_get_set_ne; [done|].
      intros Hk%lockKey_empty_range. done.
  - destruct (Hinv _ _ Hb) as (m0 & mm0 & Hch0 & -> & Hget).
    exists m0, mm0. split; [done|]. split; [done|].
    destruct (decide (name = t_name t)) as [->|Hne].
    + destruct (chosen_once _ _ _ _ _ _ Hch0 Hch) as [-> ->].
      apply obj_get_set_eq.
    + rewrite obj_get_set_ne; [done|].
      intros Hk%lockKey_empty_range. done.
  - destruct (Hinv _ _ Hb) as (m0 & mm0 & Hch0 & -> & Hget).
    exists m0, mm0. split; [done|]. split; [done|].
    destruct (decide (name = t_name t)) as [->|Hne].
    + destruct (chosen_once _ _ _ _ _ _ Hch0 Hch) as [-> ->].
      apply obj_get_set_eq.
    + rewrite obj_get_set_ne; [done|].
      intros Hk%lockKey_empty_range. done.
Qed.

Lemma initial_bound_names_locked st :
  rtc Progress initial st → bound_names_locked st.
Proof.
  intros Hrun. remember initial as st0 eqn:E.
  assert (bound_names_locked st0) as H0
    by (rewrite E; intros n b Hn; simpl in Hn; by rewrite lookup_empty in Hn).
  clear E. induction Hrun as [|st0 st1 st Hp _ IH]; [done|].
  apply IH. by apply (progress_bound_names_locked st0).
Qed.


Lemma collectDeps_unsatisfied t st st' :
  Collect t st = inr st' →
  Forall (pushed_entry registry oldLock) (unsatisfied st) →
  Forall (pushed_entry registry oldLock) (unsatisfied st').
Proof.
  intros (matched & mm & p & Hr & Hch & Hp & ->)%collectDeps_chosen Hall.
  assert (∀ parent, pushed_entry registry oldLock
            (unsatisfiedEntry (t_name t) parent (d_tarball (m_dist mm))))
    as Hnew by (intros parent; split; [done|]; by exists (t_name t), matched, mm).
  destruct p; simpl; try done;
    (apply Forall_app; split; [done|]; constructor; [|constructor];
     apply Hnew).
Qed.


End StepFacts.

(** ** The stack arrays *)

Section StackFacts.
Context `{Semver}.
Variable registry : gmap string Manifest.
Variable oldLock : gmap string LockEntry.

Local Abbreviation Collect := (collectDeps registry oldLock).
Local Abbreviation Step := (step registry oldLock).
Local Abbreviation Progress := (progress registry oldLock).

Lemma stack_of_recordAndDescend t matched mm p st ref :
  stack_of (recordAndDescend t matched mm p st) ref =
  if decide (ref = t_stack t)
  then stack_of st (t_stack t) ++ [frame_of (t_name t) matched mm]
  else stack_of st ref.
Proof.
  unfold stack_of at 1. simpl. destruct (decide (ref = t_stack t)) as [->|Hne].
  - by rewrite lookup_insert_eq.
  - by rewrite lookup_insert_ne.
Qed.

Lemma spawn_stack ref deps stack q :
  q ∈ spawn ref deps stack → t_stack q = ref.
Proof.
  unfold spawn. intros [[dep range] [-> _]]%list_elem_of_fmap. done.
Qed.

(** What a call does to the stack arrays: it pushes one frame, carrying its
    name, on its own array, unless it is covered. *)
Lemma collectDeps_stacks t st st' :
  Collect t st = inr st' →
  st' = st ∨
  ∃ matched mm,
    ∀ ref, stack_of st' ref =
           if decide (ref = t_stack t)
           then stack_of st (t_stack t) ++ [frame_of (t_name t) matched mm]
           else stack_of st ref.
Proof.
  intros (manifest & matched & mm & p & _ & _ & _ & _ & ->)%collectDeps_inv.
  destruct p; [right|by left|right..]; exists matched, mm; intros ref;
    apply stack_of_recordAndDescend.
Qed.

Lemma collectDeps_stack_prefix t st st' ref :
  Collect t st = inr st' → stack_of st ref `prefix_of` stack_of st' ref.
Proof.
  intros [->|(matched & mm & Hst)]%collectDeps_stacks; [done|].
  rewrite Hst. destruct (decide (ref = t_stack t)) as [->|]; [|done].
  by apply prefix_app_r.
Qed.

Lemma step_stack_prefix st st' ref :
  Step st st' → stack_of st ref `prefix_of` stack_of st' ref.
Proof.
  intros (i & t & _ & Hc).
  by apply (collectDeps_stack_prefix _ _ _ ref) in Hc.
Qed.

Lemma rtc_step_stack_prefix st st' ref :
  rtc Step st st' → stack_of st ref `prefix_of` stack_of st' ref.
Proof.
  induction 1 as [|st st1 st' Hs _ IH]; [done|].
  etrans; [by apply step_stack_prefix | exact IH].
Qed.

Lemma progress_nested_on_frames st st' :
  Progress st st' → nested_on_frames st → nested_on_frames st'.
Proof.
  intros [st0 st1 (i & t & Hi & Hc)|deps st0 _] Hall.
  - assert (nested_on_frames (with_pending (delete i (pending st0)) st0))
      as Hrest by (by apply Forall_delete).
    pose proof (collectDeps_inv _ _ _ _ _ Hc)
      as (manifest & matched & mm & p & _ & _ & _ & _ & Hst).
    destruct (collectDeps_stacks _ _ _ Hc) as [->|(m' & mm' & Hstacks)];
      [done|].
    assert (pending st1 =
            spawn (t_stack t) (default [] (m_dependencies mm))
              (stack_of st0 (t_stack t) ++ [frame_of (t_name t) matched mm])
            ++ delete i (pending st0)) as Hpend.
    { destruct p; rewrite Hst; try reflexivity.
      (* the covered call changes nothing, which the stacks exclude *)
      exfalso. rewrite Hst in Hstacks.
      specialize (Hstacks (t_stack t)). rewrite decide_True in Hstacks by done.
      apply (f_equal length) in Hstacks. rewrite length_app in Hstacks.
      simpl in Hstacks. lia. }
    unfold nested_on_frames. rewrite Hpend. apply Forall_app. split.
    + apply Forall_forall. intros c Hin%spawn_stack _.
      rewrite Hstacks, Hin, decide_True by done. by intros [_ ?]%app_nil.
    + eapply Forall_impl; [exact Hrest|]. intros c Hc' Hroot.
      specialize (Hc' Hroot). rewrite Hstacks.
      destruct (decide _) as [<-|]; [|done].
      by intros [_ ?]%app_nil.
  - apply Forall_forall. intros t Ht.
    apply list_elem_of_lookup in Ht as [i Hi]. simpl in Hi.
    rewrite list_lookup_imap in Hi.
    destruct (deps !! i) as [[name constraint]|]; by simplify_eq/=.
Qed.


Lemma rootRefs_delete i calls :
  rootRefs (delete i calls) `sublist_of` rootRefs calls.
Proof.
  unfold rootRefs. apply fmap_sublist.
  revert i. induction calls as [|t calls IH]; intros [|i]; simpl; [done..| |].
  - rewrite filter_cons. case_decide; [by apply sublist_cons | done].
  - rewrite !filter_cons. case_decide; [by apply sublist_skip | apply IH].
Qed.

Lemma rootRefs_spawn ref dependencies stack :
  rootRefs (spawn ref dependencies stack) = [].
Proof.
  unfold rootRefs, spawn.
  induction (filter _ dependencies) as [|[dep range] l IH]; [done|].
  simpl. by rewrite filter_cons_False.
Qed.

Lemma rootRefs_elem_of t calls :
  t ∈ calls → t_root t = true → t_stack t ∈ rootRefs calls.
Proof.
  intros Hin Hroot. unfold rootRefs.
  apply list_elem_of_fmap. exists t. split; [done|].
  by apply list_elem_of_filter.
Qed.

(** The other pending root calls work on other arrays. *)
Lemma rootRefs_other i t t' calls :
  calls !! i = Some t → t_root t = true →
  NoDup (rootRefs calls) →
  t' ∈ delete i calls → t_root t' = true →
  t_stack t' ≠ t_stack t.
Proof.
  intros Hi Hroot Hnd Hin Hroot' Heq.
  rewrite <- (take_drop_middle _ _ _ Hi) in Hnd.
  unfold rootRefs in Hnd.
  rewrite filter_app, filter_cons_True, fmap_app, fmap_cons in Hnd by done.
  apply NoDup_app in Hnd as (_ & Hleft & [Hright _]%NoDup_cons).
  rewrite delete_take_drop in Hin.
  apply elem_of_app in Hin as [Hin|Hin];
    apply rootRefs_elem_of in Hin; try done; rewrite Heq in Hin.
  - apply (Hleft _ Hin). by left.
  - done.
Qed.

Lemma rootCalls_roots_apart deps st :
  roots_apart (rootCalls deps st) ∧ nested_on_frames (rootCalls deps st).
Proof.
  assert (∀ t, t ∈ pending (rootCalls deps st) → t_root t = true) as Hroots.
  { intros t [i Hi]%list_elem_of_lookup. simpl in Hi.
    rewrite list_lookup_imap in Hi.
    destruct (deps !! i) as [[name constraint]|]; by simplify_eq/=. }
  split; [split|].
  - apply Forall_forall. intros t _ _. unfold stack_of. simpl.
    by rewrite lookup_empty.
  - unfold rootRefs. simpl.
    assert (∀ (k : nat) (l : DependenciesMap),
              t_stack <$>
                filter (λ t, t_root t = true)
                  (imap (λ i '(name, constraint),
                           {| t_name := name; t_constraint := constraint;
                              t_stack := k + i; t_root := true |}) l)
              = seq k (length l)) as Hseq.
    { intros k l. revert k. induction l as [|[n c] l IH]; intros k; [done|].
      simpl. rewrite Nat.add_0_r. f_equal.
      rewrite <- (IH (S k)). f_equal. f_equal.
      apply imap_ext. intros i [n' c'] _. simpl. f_equal. lia. }
    rewrite (Hseq 0%nat). apply NoDup_seq.
  - apply Forall_forall. intros t Ht Hroot.
    rewrite (Hroots t Ht) in Hroot. done.
Qed.

Lemma step_roots_apart st st' :
  Step st st' → nested_on_frames st → roots_apart st → roots_apart st'.
Proof.
  intros (i & t & Hi & Hc) Hnested [Hempty Hnd].
  assert (roots_apart (with_pending (delete i (pending st)) st)) as Hrest.
  { split; simpl.
    - by apply Forall_delete.
    - eapply sublist_NoDup; [exact Hnd | apply rootRefs_delete]. }
  pose proof (collectDeps_inv _ _ _ _ _ Hc)
    as (manifest & matched & mm & p & _ & _ & _ & _ & Hst).
  destruct (collectDeps_stacks _ _ _ Hc) as [->|(m' & mm' & Hstacks)];
    [done|].
  assert (pending st' =
          spawn (t_stack t) (default [] (m_dependencies mm))
            (stack_of st (t_stack t) ++ [frame_of (t_name t) matched mm])
          ++ delete i (pending st)) as Hpend.
  { destruct p; rewrite Hst; try reflexivity.
    exfalso. rewrite Hst in Hstacks.
    specialize (Hstacks (t_stack t)). rewrite decide_True in Hstacks by done.
    apply (f_equal length) in Hstacks. rewrite length_app in Hstacks.
    simpl in Hstacks. lia. }
  assert (t ∈ pending st) as Ht by (by apply list_elem_of_lookup_2 in Hi).
  split.
  - rewrite Hpend. apply Forall_app. split.
    + apply Forall_forall. intros c Hin Hroot. exfalso.
      unfold spawn in Hin.
      apply list_elem_of_fmap in Hin as [[dep range] [-> _]]. done.
    + apply Forall_forall. intros c Hin Hroot.
      rewrite Hstacks. simpl in Hstacks.
      rewrite Forall_forall in Hempty.
      assert (c ∈ pending st) as Hc'
        by (by apply list_elem_of_delete_inv in Hin).
      destruct (decide (t_stack c = t_stack t)) as [Heq|_];
        [exfalso | by apply Hempty].
      destruct (t_root t) eqn:Hroot_t.
      * by apply (rootRefs_other i t c (pending st)).
      * unfold nested_on_frames in Hnested. rewrite Forall_forall in Hnested.
        apply (Hnested t Ht Hroot_t). rewrite <- Heq. by apply Hempty.
  - rewrite Hpend. unfold rootRefs.
    rewrite filter_app, fmap_app.
    fold (rootRefs (spawn (t_stack t) (default [] (m_dependencies mm))
            (stack_of st (t_stack t) ++ [frame_of (t_name t) matched mm]))).
    rewrite rootRefs_spawn. simpl.
    eapply sublist_NoDup; [exact Hnd | apply rootRefs_delete].
Qed.

(** Along the run of a field the pending calls keep to their arrays. *)
Lemma rootCalls_arrays deps st st' :
  rtc Step (rootCalls deps st) st' → roots_apart st' ∧ nested_on_frames st'.
Proof.
  intros Hrun. pose proof (rootCalls_roots_apart deps st) as [Hr Hn].
  remember (rootCalls deps st) as st0 eqn:E. clear E.
  induction Hrun as [|st0 st1 st' Hs _ IH]; [done|].
  apply IH.
  - by apply (step_roots_apart st0).
  - apply (progress_nested_on_frames st0); [by apply progress_call | done].
Qed.

(** A call on an empty stack for a bound name is covered when it returns. *)
Lemma collectDeps_bound_empty_stack t st st' :
  stack_of st (t_stack t) = [] →
  is_Some (topLevel st !! t_name t) →
  Collect t st = inr st' → st' = st.
Proof.
  intros Hstack [bound Hb]
    (manifest & matched & mm & p & _ & _ & _ & Hp & ->)%collectDeps_inv.
  unfold placement in Hp. rewrite Hb, Hstack in Hp.
  destruct (satisfies _ _); [|done]. simpl in Hp. by injection Hp as <-.
Qed.

(** A pending call with a non-empty range stays pending for ever: its body
    cannot complete. *)
Lemma step_blocked st st' : Step st st' → blocked st → blocked st'.
Proof.
  intros (i & t & Hi & Hc) Hb.
  assert (blocked (with_pending (delete i (pending st)) st)) as Hrest.
  { unfold blocked in *. simpl. rewrite Exists_exists in Hb |- *.
    destruct Hb as (b & Hin & Htruthy). exists b. split; [|done].
    apply list_elem_of_lookup in Hin as [j Hj].
    destruct (decide (i = j)) as [->|Hne].
    - rewrite Hi in Hj. injection Hj as ->.
      apply collectDeps_inv in Hc as (? & ? & ? & ? & _ & Hv & _).
      apply chooseVersion_inr in Hv as [Hv _]. rewrite Hv in Htruthy. done.
    - destruct (decide (j < i)%nat).
      + apply (list_elem_of_lookup_2 _ j). by rewrite list_lookup_delete_lt.
      + apply (list_elem_of_lookup_2 _ (pred j)).
        rewrite list_lookup_delete_ge by lia.
        replace (S (pred j)) with j by lia. done. }
  apply collectDeps_inv in Hc as (? & ? & ? & p & _ & _ & _ & _ & ->).
  destruct p; try done; unfold blocked; simpl;
    apply Exists_app; by right.
Qed.

End StackFacts.
(** ** Root calls and the project manifest *)

Section RootFacts.
Context `{Semver}.
Variable registry : gmap string Manifest.
Variable oldLock : gmap string LockEntry.

Local Abbreviation Acquire := (acquireManifest registry oldLock).
Local Abbreviation Collect := (collectDeps registry oldLock).
Local Abbreviation Step := (step registry oldLock).
Local Abbreviation Chosen := (chosen registry oldLock).

Lemma truthy_false constraint : truthy constraint = false → constraint = "".
Proof. unfold truthy. by intros ?%negb_false_iff%String.eqb_eq. Qed.

Lemma step_root_signals deps st st' :
  Step st st' →
  root_signals registry oldLock deps st →
  root_signals registry oldLock deps st'.
Proof.
  intros (i & t & Hi & Hc) [Hpend Hret].
  assert (t_root t = true → (t_name t, t_constraint t) ∈ deps) as Ht.
  { rewrite Forall_forall in Hpend. apply Hpend.
    by apply list_elem_of_lookup_2 in Hi. }
  assert (Forall (λ t, t_root t = true → (t_name t, t_constraint t) ∈ deps)
            (delete i (pending st))) as Hrest by (by apply Forall_delete).
  apply collectDeps_chosen in Hc as (matched & mm & p & Hr & Hch & _ & ->).
  assert (∀ q, root_signals registry oldLock deps
            (recordAndDescend t matched mm q
               (with_pending (delete i (pending st)) st))) as Hrec.
  { intros q. split; simpl.
    - apply Forall_app. split; [|done].
      apply Forall_forall. intros c Hcin.
      apply list_elem_of_fmap in Hcin as [[dep range] [-> _]]. discriminate.
    - destruct (t_root t) eqn:Hroot; simpl; [|done].
      rewrite Hr. simpl.
      apply Forall_app. split; [done|]. constructor; [|constructor].
      rewrite Hr in Ht. split; [by apply Ht|]. by exists matched, mm. }
  destruct p; try apply Hrec. by split.
Qed.

Lemma rootCalls_root_signals deps st st' :
  rtc Step (rootCalls deps st) st' →
  root_signals registry oldLock deps st'.
Proof.
  intros Hrun.
  assert (root_signals registry oldLock deps (rootCalls deps st)) as Hinit.
  { split; [|constructor]. simpl.
    apply Forall_forall. intros t Ht _.
    apply list_elem_of_lookup in Ht as [i Hi].
    rewrite list_lookup_imap in Hi.
    destruct (deps !! i) as [[n c]|] eqn:Hd; simplify_eq/=.
    by apply list_elem_of_lookup_2 with i. }
  remember (rootCalls deps st) as st0 eqn:E. clear E.
  induction Hrun as [|st0 st1 st' Hs _ IH]; [done|].
  apply IH. by apply (step_root_signals deps st0).
Qed.

(** The values for the driver of one name are all the same caret. *)
Lemma root_signals_same deps st name matched mm :
  root_signals registry oldLock deps st →
  Chosen name "" matched mm →
  ∀ other, (name, other) ∈ returned st → other = "^" +:+ matched.
Proof.
  intros [_ Hret] Hch other Hin. rewrite Forall_forall in Hret.
  destruct (Hret _ Hin) as [_ (matched' & mm' & Hch' & Hval)]. simpl in *.
  by destruct (chosen_once _ _ _ _ _ _ _ _ Hch Hch') as [-> _].
Qed.

(** A body adds a value for the driver only when it is the body of a root
    call that binds its name at the top level. *)
Lemma step_returned st st' :
  Step st st' → roots_apart st →
  returned st' = returned st ∨
  ∃ i t matched mm,
    pending st !! i = Some t ∧ t_root t = true ∧
    topLevel st !! t_name t = None ∧
    Chosen (t_name t) "" matched mm ∧
    returned st' = returned st ++ [(t_name t, "^" +:+ matched)].
Proof.
  intros (i & t & Hi & Hc) [Hempty _].
  pose proof (collectDeps_chosen _ _ _ _ _ Hc)
    as (matched & mm & p & Hr & Hch & Hp & Hst).
  destruct (t_root t) eqn:Hroot.
  - destruct (topLevel st !! t_name t) as [bound|] eqn:Hb.
    + left. rewrite Forall_forall in Hempty.
      assert (st' = with_pending (delete i (pending st)) st) as ->; [|done].
      eapply collectDeps_bound_empty_stack; [|by exists bound|exact Hc].
      simpl. apply Hempty; [|done]. by apply list_elem_of_lookup_2 in Hi.
    + right. exists i, t, matched, mm. repeat split; try done.
      assert (p = PlaceTop) as ->.
      { unfold placement in Hp. simpl in Hp. rewrite Hb in Hp.
        by injection Hp as <-. }
      rewrite Hst. simpl. by rewrite Hroot, Hr.
  - left. rewrite Hst. destruct p; simpl; try done; by rewrite Hroot.
Qed.

Lemma rtc_step_topLevel st st' name bound :
  rtc Step st st' →
  topLevel st !! name = Some bound → topLevel st' !! name = Some bound.
Proof.
  induction 1 as [|st st1 st' Hs _ IH]; [done|].
  intros Hb. apply IH. by apply (step_topLevel registry oldLock st).
Qed.

Lemma rtc_step_returned st st' item :
  rtc Step st st' → item ∈ returned st → item ∈ returned st'.
Proof.
  induction 1 as [|st st1 st' (i & t & _ & Hc) _ IH]; [done|].
  intros Hin. apply IH.
  apply collectDeps_inv in Hc as (? & ? & ? & p & _ & _ & _ & _ & ->).
  destruct p; simpl; try done;
    (destruct (_ && _); [apply elem_of_app; by left | done]).
Qed.

(** A name that is bound when the calls of a field are made gets no value. *)
Lemma bound_name_unsignalled deps st st' name :
  is_Some (topLevel st !! name) →
  rtc Step (rootCalls deps st) st' →
  name ∉ (returned st').*1.
Proof.
  intros [bound Hb] Hrun.
  assert (topLevel (rootCalls deps st) !! name = Some bound) as Hb0 by done.
  assert (name ∉ (returned (rootCalls deps st)).*1) as Hnot
    by (simpl; by intros ?%elem_of_nil).
  pose proof (rootCalls_roots_apart deps st) as [Hr Hn].
  remember (rootCalls deps st) as st0 eqn:E. clear E Hb.
  induction Hrun as [|st0 st1 st' Hs _ IH]; [done|].
  apply IH.
  - by apply (step_topLevel registry oldLock st0).
  - destruct (step_returned _ _ Hs Hr)
      as [->|(i & t & matched & mm & _ & _ & Hnone & _ & ->)]; [done|].
    rewrite fmap_app. simpl.
    intros [?|Heq%list_elem_of_singleton]%elem_of_app; [done|].
    congruence.
  - by apply (step_roots_apart registry oldLock st0).
  - apply (progress_nested_on_frames registry oldLock st0); [by apply progress_call|done].
Qed.

Lemma rootNames_spawn ref dependencies stack :
  rootNames (spawn ref dependencies stack) = [].
Proof.
  unfold rootNames, spawn.
  induction (filter _ dependencies) as [|[dep range] l IH]; [done|].
  simpl. by rewrite filter_cons_False.
Qed.

Lemma rootNames_delete i t calls :
  calls !! i = Some t →
  rootNames calls ≡ₚ
    (if t_root t then [t_name t] else []) ++ rootNames (delete i calls).
Proof.
  intros Hi. unfold rootNames.
  rewrite (delete_Permutation calls i t Hi) at 1.
  rewrite filter_cons. destruct (t_root t); by case_decide.
Qed.

Lemma rootNames_rootCalls deps st :
  rootNames (pending (rootCalls deps st)) = obj_keys deps.
Proof.
  unfold rootNames. simpl.
  assert (∀ (k : nat) (l : DependenciesMap),
            t_name <$>
              filter (λ t, t_root t = true)
                (imap (λ i '(name, constraint),
                         {| t_name := name; t_constraint := constraint;
                            t_stack := k + i; t_root := true |}) l)
            = obj_keys l) as Hkeys.
  { intros k l. revert k. induction l as [|[n c] l IH]; intros k; [done|].
    simpl. f_equal. rewrite <- (IH (S k)). f_equal. f_equal.
    apply imap_ext. intros i [n' c'] _. simpl. f_equal. lia. }
  apply (Hkeys 0%nat).
Qed.

(** What a body does to the values for the driver and to the pending root
    calls: at most, the call that ran leaves the pool and its name gets a
    value. *)
Lemma step_root_names st st' :
  Step st st' →
  ∃ i t,
    pending st !! i = Some t ∧
    rootNames (pending st') = rootNames (delete i (pending st)) ∧
    (returned st' = returned st ∨
     t_root t = true ∧
     ∃ version, returned st' = returned st ++ [(t_name t, version)]).
Proof.
  intros (i & t & Hi & Hc). exists i, t. split; [done|].
  apply collectDeps_inv in Hc as (? & matched & mm & p & _ & _ & _ & _ & ->).
  assert (rootNames
            (spawn (t_stack t) (default [] (m_dependencies mm))
               (stack_of (with_pending (delete i (pending st)) st) (t_stack t)
                ++ [{| f_name := t_name t; f_version := matched;
                       f_dependencies := default [] (m_dependencies mm) |}])
             ++ delete i (pending st)) =
          rootNames (delete i (pending st))) as Hnames.
  { unfold rootNames. rewrite filter_app, fmap_app.
    fold (rootNames (spawn (t_stack t) (default [] (m_dependencies mm))
            (stack_of (with_pending (delete i (pending st)) st) (t_stack t)
             ++ [{| f_name := t_name t; f_version := matched;
                    f_dependencies := default [] (m_dependencies mm) |}]))).
    by rewrite rootNames_spawn. }
  destruct p; simpl; (split; [done|]); try (by left);
    (destruct (t_root t); simpl; [|by left];
     destruct (negb _); [right; split; [done|]; by eexists | by left]).
Qed.

Lemma step_roots_once st st' : Step st st' → roots_once st → roots_once st'.
Proof.
  intros (i & t & Hi & Hnames & Hret)%step_root_names Hnd.
  unfold roots_once in *. rewrite Hnames.
  rewrite (rootNames_delete i t _ Hi) in Hnd.
  destruct Hret as [->|[Hroot [version ->]]].
  - apply NoDup_app in Hnd as (Hl & Hd & Hr).
    apply NoDup_app in Hr as (_ & _ & Hr).
    apply NoDup_app. split; [done|]. split; [|done].
    intros n Hn Hin. apply (Hd n Hn). apply elem_of_app. by right.
  - rewrite Hroot in Hnd. by rewrite fmap_app, <- (assoc_L (++)).
Qed.

Lemma rootCalls_roots_once deps st st' :
  NoDup (obj_keys deps) →
  rtc Step (rootCalls deps st) st' → roots_once st'.
Proof.
  intros Hnd Hrun.
  assert (roots_once (rootCalls deps st)) as Hinit.
  { unfold roots_once. by rewrite rootNames_rootCalls. }
  remember (rootCalls deps st) as st0 eqn:E. clear E.
  induction Hrun as [|st0 st1 st' Hs _ IH]; [done|].
  apply IH. by apply (step_roots_once st0).
Qed.

(** A name that has neither a value nor a pending root call gets no value
    later. *)
Lemma rtc_step_no_value st st' name :
  rtc Step st st' →
  name ∉ (returned st).*1 → name ∉ rootNames (pending st) →
  name ∉ (returned st').*1.
Proof.
  induction 1 as [|st st1 st' Hs _ IH]; [done|].
  intros Hret Hpend.
  destruct (step_root_names _ _ Hs) as (i & t & Hi & Hnames & Hval).
  pose proof (rootNames_delete i t _ Hi) as Hperm.
  assert (∀ n, n ∈ rootNames (delete i (pending st)) →
               n ∈ rootNames (pending st)) as Hsub.
  { intros n Hn. rewrite Hperm. apply elem_of_app. by right. }
  apply IH.
  - destruct Hval as [->|[Hroot [version ->]]]; [done|].
    rewrite fmap_app. simpl.
    intros [?|Heq%list_elem_of_singleton]%elem_of_app; [done|].
    apply Hpend. rewrite Hperm, Hroot, Heq. by left.
  - rewrite Hnames. intros Hn. by apply Hpend, Hsub.
Qed.

(** The entry of a root call that was covered is left as it was. *)
Lemma covered_root_call_unsignalled deps st st1 i t st' :
  NoDup (obj_keys deps) →
  rtc Step (rootCalls deps st) st1 →
  pending st1 !! i = Some t → t_root t = true →
  rtc Step (with_pending (delete i (pending st1)) st1) st' →
  t_name t ∉ (returned st').*1.
Proof.
  intros Hnd Hrun Hi Hroot Hrest.
  pose proof (rootCalls_roots_once deps st st1 Hnd Hrun) as Honce.
  unfold roots_once in Honce.
  rewrite (rootNames_delete i t _ Hi), Hroot in Honce.
  apply NoDup_app in Honce as (_ & Hd & [Hfresh _]%NoDup_cons).
  apply (rtc_step_no_value _ _ _ Hrest); simpl; [|done].
  intros Hin. apply (Hd _ Hin). by left.
Qed.


End RootFacts.

(** ** Replaying the old lock *)

Section LockFacts.
Context `{Semver}.
Variable oldLock : gmap string LockEntry.

(** C6 (defect of the source).  For a request present in the old lock,
    [getItem] returns the manifest whose only key is the locked version,
    carrying the entry's dependencies, tarball and shasum, and whatever the
    registry holds that manifest is the one [collectDeps] works on.  The
    version choice then runs on it as on any manifest.  With the empty range
    it takes the locked version.  With any other range, as in scenario S5,
    line 40 calls [semver.maxSatisying]: the call throws and the locked
    version is not picked.  For a request absent from the old lock
    [getItem] returns nothing. *)
Theorem locked_request_replays_lock name range :
  match oldLock !! lockKey name range with
  | None => getItem oldLock name range = None
  | Some item =>
      getItem oldLock name range = Some (synthetic item) ∧
      obj_keys (synthetic item) = [l_version item] ∧
      obj_get (l_version item) (synthetic item) =
        Some {| m_dependencies := Some (l_dependencies item);
                m_dist := {| d_shasum := l_shasum item;
                             d_tarball := l_url item |} |} ∧
      (∀ registry,
         acquireManifest registry oldLock name range =
         Some (synthetic item)) ∧
      (range = "" → l_version item ≠ "" →
       chooseVersion (synthetic item) range = inr (l_version item)) ∧
      (range ≠ "" →
       chooseVersion (synthetic item) range = inl NotAFunction ∧
       ∀ registry t st,
         t_name t = name → t_constraint t = range →
         collectDeps registry oldLock t st = inl NotAFunction)
  end.
Proof.
  destruct (oldLock !! lockKey name range) as [item|] eqn:Hitem.
  - assert (getItem oldLock name range = Some (synthetic item)) as Hget
      by (unfold getItem; by rewrite Hitem).
    assert (∀ registry,
              acquireManifest registry oldLock name range =
              Some (synthetic item)) as Hacq
      by (intros registry; unfold acquireManifest; by rewrite Hget).
    split; [done|]. split; [done|].
    split; [simpl; by rewrite String.eqb_refl|]. split; [done|]. split.
    + intros -> Hver. unfold chooseVersion, truthy. simpl.
      by destruct (String.eqb_spec (l_version item) "").
    + intros Hrange.
      assert (chooseVersion (synthetic item) range = inl NotAFunction) as Hv.
      { unfold chooseVersion, truthy.
        by destruct (String.eqb_spec range ""). }
      split; [done|]. intros registry t st <- <-.
      unfold collectDeps. by rewrite Hacq, Hv.
  - unfold getItem. by rewrite Hitem.
Qed.

End LockFacts.

(** ** Determinism of the serialized lock *)

Lemma key_le_transitive {V} : Transitive (@key_le V).
Proof. intros p q r. unfold key_le. apply transitivity. Qed.

Lemma key_le_total {V} : Total (@key_le V).
Proof. intros p q. unfold key_le. apply total, _. Qed.

Lemma Sorted_sortEntries {V} (o : JsObject V) : Sorted key_le (sortEntries o).
Proof. apply Sorted_merge_sort, key_le_total. Qed.

Lemma sortEntries_Permutation {V} (o : JsObject V) : sortEntries o ≡ₚ o.
Proof. apply merge_sort_Permutation. Qed.

(** Sorting forgets the order of insertion of an object. *)
Lemma sortEntries_insertion_order {V} (o1 o2 : JsObject V) :
  NoDup (obj_keys o1) → o1 ≡ₚ o2 → sortEntries o1 = sortEntries o2.
Proof.
  intros Hnd Hperm.
  pose proof (@key_le_transitive V) as Htrans.
  apply (Sorted_unique_strong key_le);
    [| apply Sorted_sortEntries | apply Sorted_sortEntries
     | by rewrite !sortEntries_Permutation].
  intros [k1 v1] [k2 v2] H1 H2 Hle Hge.
  rewrite sortEntries_Permutation in H1.
  rewrite sortEntries_Permutation, <- Hperm in H2.
  unfold key_le in Hle, Hge. simpl in *.
  assert (k1 = k2) as <- by (by apply (anti_symm String.le)).
  f_equal.
  apply list_elem_of_lookup in H1 as [i Hi], H2 as [j Hj].
  assert (i = j) as <-.
  { eapply NoDup_lookup; [exact Hnd | |]; unfold obj_keys;
      rewrite list_lookup_fmap; [by rewrite Hi | by rewrite Hj]. }
  congruence.
Qed.

Lemma obj_keys_map_values {V W} (f : string * V → W) (o : JsObject V) :
  obj_keys (map (λ p, (p.1, f p)) o) = obj_keys o.
Proof. unfold obj_keys. rewrite map_map. by apply map_ext. Qed.

Lemma sortKeys_entryYaml e :
  sortKeys (entryYaml e) =
  YMap (sortEntries
          [("version", YStr (l_version e)); ("url", YStr (l_url e));
           ("shasum", YStr (l_shasum e));
           ("dependencies",
            YMap (sortEntries
                    (map (λ p, (p.1, YStr p.2)) (l_dependencies e))))]).
Proof.
  unfold entryYaml. cbn [sortKeys map fst snd]. by rewrite map_map.
Qed.

Lemma sortKeys_lockYaml lock :
  sortKeys (lockYaml lock) =
  YMap (sortEntries (map (λ p, (p.1, sortKeys (entryYaml p.2))) lock)).
Proof. unfold lockYaml. cbn [sortKeys]. by rewrite map_map. Qed.

Lemma same_entry_sortKeys e1 e2 :
  NoDup (obj_keys (l_dependencies e1)) →
  same_entry e1 e2 → sortKeys (entryYaml e1) = sortKeys (entryYaml e2).
Proof.
  intros Hnd (Hv & Hu & Hs & Hd).
  rewrite !sortKeys_entryYaml, Hv, Hu, Hs.
  rewrite (sortEntries_insertion_order
             (map (λ p, (p.1, YStr p.2)) (l_dependencies e1))
             (map (λ p, (p.1, YStr p.2)) (l_dependencies e2)));
    [done | | by apply Permutation_map].
  by rewrite (obj_keys_map_values (λ p, YStr p.2)).
Qed.

Lemma sortKeys_entryYaml_sorted e :
  ∃ fields,
    sortKeys (entryYaml e) = YMap fields ∧ Sorted key_le fields ∧
    Forall (λ f, ∀ nested, f.2 = YMap nested → Sorted key_le nested) fields.
Proof.
  rewrite sortKeys_entryYaml. eexists. split; [reflexivity|].
  split; [apply Sorted_sortEntries|].
  rewrite sortEntries_Permutation.
  repeat constructor; cbn [snd]; intros nested Hn; try discriminate.
  injection Hn as <-. apply Sorted_sortEntries.
Qed.

Lemma obj_keys_set {V} (k : string) (v : V) (o : JsObject V) :
  obj_keys (obj_set k v o) =
  if decide (k ∈ obj_keys o) then obj_keys o else obj_keys o ++ [k].
Proof.
  induction o as [|[k' v'] o IH]; cbn [obj_set obj_keys map fst].
  - destruct (decide (k ∈ [])) as [Hin|_]; [by inversion Hin | done].
  - fold (obj_keys o).
    destruct (String.eqb_spec k' k) as [->|Hne]; cbn [map fst].
    + fold (obj_keys o).
      destruct (decide (k ∈ k :: obj_keys o)) as [_|Hnot]; [done|].
      destruct Hnot. by left.
    + fold (obj_keys (obj_set k v o)). rewrite IH.
      destruct (decide (k ∈ obj_keys o)) as [Hin|Hnot];
        destruct (decide (k ∈ k' :: obj_keys o)) as [Hin'|Hnot']; try done.
      * destruct Hnot'. by right.
      * apply elem_of_cons in Hin' as [?|?]; [congruence | done].
Qed.

(** The new lock is a JS object: [updateOrCreate] keeps one entry per key. *)
Lemma updateOrCreate_keys name info lock :
  NoDup (obj_keys lock) → NoDup (obj_keys (updateOrCreate name info lock)).
Proof.
  intros Hnd. unfold updateOrCreate. rewrite obj_keys_set.
  destruct (decide (name ∈ obj_keys lock)) as [Hin|Hnot]; [done|].
  apply NoDup_app. split; [done|]. split; [|apply NoDup_singleton].
  intros k Hk ->%list_elem_of_singleton. done.
Qed.

Lemma progress_newLock_keys `{Semver} registry oldLock st st' :
  progress registry oldLock st st' →
  NoDup (obj_keys (newLock st)) → NoDup (obj_keys (newLock st')).
Proof.
  intros [st0 st1 (i & t & _ & Hc)|deps st0 _] Hnd; [|done].
  apply collectDeps_inv in Hc as (manifest & matched & mm & p & _ & _ & _ & _ & ->).
  destruct p; try done; by apply updateOrCreate_keys.
Qed.

(** C9.  With [utils.sortKeys] sorting the keys of the lock and of its nested
    maps, the text written by [writeLock] depends only on the entries that
    the new lock holds: two locks with the same entries, inserted in any
    order and with their dependencies listed in any order, are written as
    the same text, whose mappings all have their keys in sorted order. *)
Theorem writeLock_insertion_order (dump : Yaml → string) lock1 lock2 :
  lock_object lock1 →
  same_contents lock1 lock2 →
  writeLock dump lock1 = writeLock dump lock2 ∧
  ∃ entries,
    sortKeys (lockYaml lock1) = YMap entries ∧
    Sorted key_le entries ∧
    Forall (λ p, ∃ fields,
              p.2 = YMap fields ∧ Sorted key_le fields ∧
              Forall (λ f, ∀ nested, f.2 = YMap nested → Sorted key_le nested)
                     fields) entries.
Proof.
  intros [Hnd Hdeps] (lock1' & Hperm & Hsame). split.
  - unfold writeLock. rewrite !sortKeys_lockYaml. do 2 f_equal.
    transitivity
      (sortEntries (map (λ p, (p.1, sortKeys (entryYaml p.2))) lock1')).
    + apply sortEntries_insertion_order.
      * by rewrite (obj_keys_map_values (λ p, sortKeys (entryYaml p.2))).
      * by apply Permutation_map.
    + f_equal.
      assert (Forall (λ p, NoDup (obj_keys (l_dependencies p.2))) lock1')
        as Hdeps' by (by rewrite <- Hperm).
      clear Hperm Hnd Hdeps.
      induction Hsame as [|[k1 e1] [k2 e2] l1 l2 [Hk He] _ IH]; [done|].
      inversion Hdeps' as [|? ? Hd1 Hrest]; subst.
      cbn [map fst snd] in *.
      rewrite Hk, (same_entry_sortKeys e1 e2 Hd1 He). f_equal. by apply IH.
  - rewrite sortKeys_lockYaml. eexists. split; [reflexivity|].
    split; [apply Sorted_sortEntries|].
    rewrite sortEntries_Permutation.
    apply Forall_forall. intros [k y] Hin.
    apply list_elem_of_fmap in Hin as [[k0 e] [Heq _]].
    injection Heq as -> ->. apply sortKeys_entryYaml_sorted.
Qed.

(** ** Termination *)

Local Open Scope nat_scope.

Lemma obj_get_Some_elem {V} (k : string) (v : V) (o : JsObject V) :
  obj_get k o = Some v → (k, v) ∈ o.
Proof.
  induction o as [|[k' v'] o IH]; simpl; [discriminate|].
  destruct (String.eqb_spec k' k) as [->|_].
  - intros [= ->]. by left.
  - intros Hget. right. by apply IH.
Qed.

Lemma filter_length_le {A} (P Q : A → bool) (l : list A) :
  (∀ x, P x = false → Q x = false) →
  length (filter (λ x, P x = false) l) ≤ length (filter (λ x, Q x = false) l).
Proof.
  intros Himp. induction l as [|x l IH]; [done|].
  rewrite !filter_cons.
  destruct (decide (P x = false)) as [HP|HP];
    destruct (decide (Q x = false)) as [HQ|HQ]; simpl; try lia.
  apply Himp in HP. congruence.
Qed.

Lemma filter_length_lt {A} (P Q : A → bool) (l : list A) (a : A) :
  (∀ x, P x = false → Q x = false) →
  a ∈ l → Q a = false → P a = true →
  length (filter (λ x, P x = false) l) < length (filter (λ x, Q x = false) l).
Proof.
  intros Himp Ha HQa HPa. induction l as [|x l IH]; [by inversion Ha|].
  pose proof (filter_length_le P Q l Himp) as Hle.
  rewrite !filter_cons.
  apply elem_of_cons in Ha as [<-|Hal].
  - rewrite (decide_True (P:=Q a = false)) by done.
    rewrite (decide_False (P:=P a = false)) by congruence.
    simpl. lia.
  - specialize (IH Hal).
    destruct (decide (P x = false)) as [HP|HP];
      destruct (decide (Q x = false)) as [HQ|HQ]; simpl; try lia.
    apply Himp in HP. congruence.
Qed.

Lemma sum_list_with_lookup_delete {A} (f : A → nat) (l : list A) i a :
  l !! i = Some a →
  sum_list_with f l = f a + sum_list_with f (delete i l).
Proof.
  revert i. induction l as [|x l IH]; intros [|i] Hi; simplify_eq/=; [done|].
  rewrite (IH i Hi). lia.
Qed.

Lemma sum_list_with_le {A} (f g : A → nat) (l : list A) :
  (∀ x, x ∈ l → f x ≤ g x) → sum_list_with f l ≤ sum_list_with g l.
Proof.
  induction l as [|x l IH]; intros Hle; simpl; [done|].
  pose proof (Hle x ltac:(by left)).
  assert (sum_list_with f l ≤ sum_list_with g l)
    by (apply IH; intros y Hy; apply Hle; by right).
  lia.
Qed.

Lemma sum_list_with_const {A} (f : A → nat) (c : nat) (l : list A) :
  (∀ x, x ∈ l → f x = c) → sum_list_with f l = length l * c.
Proof.
  induction l as [|x l IH]; intros Heq; simpl; [done|].
  rewrite (Heq x) by (by left).
  rewrite IH by (intros y Hy; apply Heq; by right). lia.
Qed.

Section Termination.
Context `{Semver}.
Variable registry : gmap string Manifest.
Variable oldLock : gmap string LockEntry.

Local Abbreviation Step := (step registry oldLock).
Local Abbreviation Demands := (demands registry oldLock).
Local Abbreviation Fanout := (fanout registry oldLock).
Local Abbreviation Open := (open registry oldLock).
Local Abbreviation Budget := (budget registry oldLock).
Local Abbreviation Counts := (counts registry oldLock).
Local Abbreviation WeightOn := (weight_on registry oldLock).
Local Abbreviation Weight := (weight registry oldLock).
Local Abbreviation Measure := (measure registry oldLock).

Lemma hasCirculation_app name range stack more :
  hasCirculation name range (stack ++ more) =
  hasCirculation name range stack || hasCirculation name range more.
Proof. unfold hasCirculation. apply existsb_app. Qed.

(** The frame pushed by a call closes the demand of the call, as soon as the
    chosen version satisfies the range. *)
Lemma hasCirculation_pushed name range matched deps stack :
  satisfies matched range = true →
  hasCirculation name range
    (stack ++ [{| f_name := name; f_version := matched;
                  f_dependencies := deps |}]) = true.
Proof.
  intros Hs. rewrite hasCirculation_app. simpl.
  rewrite String.eqb_refl, Hs. simpl. by rewrite orb_true_r.
Qed.

Lemma open_app_le stack more : Open (stack ++ more) ≤ Open stack.
Proof.
  unfold open.
  apply (filter_length_le
           (λ d, hasCirculation d.1 d.2 (stack ++ more))
           (λ d, hasCirculation d.1 d.2 stack)).
  intros d. rewrite hasCirculation_app. by intros [? _]%orb_false_elim.
Qed.

Lemma open_app_lt stack more d :
  d ∈ Demands →
  hasCirculation d.1 d.2 stack = false →
  hasCirculation d.1 d.2 (stack ++ more) = true →
  Open (stack ++ more) < Open stack.
Proof.
  intros Hd Hfree Hclosed. unfold open.
  apply (filter_length_lt
           (λ d, hasCirculation d.1 d.2 (stack ++ more))
           (λ d, hasCirculation d.1 d.2 stack) _ d);
    [|done..].
  intros x. rewrite hasCirculation_app. by intros [? _]%orb_false_elim.
Qed.

Lemma budget_succ n : Budget n ≤ Budget (S n).
Proof.
  induction n as [|n IH]; cbn [budget] in *; [lia|].
  apply Nat.add_le_mono_l, Nat.mul_le_mono_l, IH.
Qed.

Lemma budget_mono n m : n ≤ m → Budget n ≤ Budget m.
Proof.
  intros Hle. induction Hle as [|m _ IH]; [done|].
  etrans; [exact IH | apply budget_succ].
Qed.

Lemma counts_open stack t : Counts stack t = true → 0 < Open stack.
Proof.
  unfold counts. intros [Hin Hfree]%andb_true_iff.
  apply bool_decide_eq_true in Hin. apply negb_true_iff in Hfree.
  unfold open.
  assert ((t_name t, t_constraint t) ∈
            filter (λ d, hasCirculation d.1 d.2 stack = false) Demands)
    as Hmem by (by apply list_elem_of_filter).
  destruct (filter _ _); [by inversion Hmem | simpl; lia].
Qed.

(** A pending call weighs no more once its stack has grown. *)
Lemma weight_on_app stack more t :
  WeightOn (stack ++ more) t ≤ WeightOn stack t.
Proof.
  unfold weight_on.
  pose proof (open_app_le stack more) as Hle.
  assert (Open (stack ++ more) - (if Counts (stack ++ more) t then 1 else 0)
          ≤ Open stack - (if Counts stack t then 1 else 0)) as Harg.
  { destruct (Counts stack t) eqn:Hc; [|lia].
    destruct (Counts (stack ++ more) t) eqn:Hc'; [lia|].
    unfold counts in Hc, Hc'.
    apply andb_true_iff in Hc as [Hin Hfree].
    rewrite Hin in Hc'. simpl in Hc'.
    apply negb_true_iff in Hfree. apply negb_false_iff in Hc'.
    apply bool_decide_eq_true in Hin.
    pose proof (open_app_lt stack more _ Hin Hfree Hc'). lia. }
  apply budget_mono in Harg. nia.
Qed.

(** A call made for an open demand weighs the budget of the open demands. *)
Lemma weight_on_counted stack t :
  Counts stack t = true → WeightOn stack t = Budget (Open stack).
Proof.
  intros Hc. pose proof (counts_open _ _ Hc) as Hpos.
  unfold weight_on. rewrite Hc.
  destruct (Open stack) as [|n]; [lia|]. simpl.
  by rewrite Nat.sub_0_r.
Qed.

Lemma dependencies_known name constraint manifest matched mm :
  acquireManifest registry oldLock name constraint = Some manifest →
  obj_get matched manifest = Some mm →
  default [] (m_dependencies mm) ∈ dependencyObjects registry oldLock.
Proof.
  unfold acquireManifest, getItem, dependencyObjects.
  intros Ha Hm. apply elem_of_app.
  destruct (oldLock !! lockKey name constraint) as [item|] eqn:Hitem.
  - right. injection Ha as <-. simpl in Hm.
    destruct (String.eqb _ _); [|discriminate]. injection Hm as <-. simpl.
    apply list_elem_of_fmap. exists (lockKey name constraint, item).
    split; [done|]. by apply elem_of_map_to_list.
  - left. apply list_elem_of_bind. exists (name, manifest).
    split; [|by apply elem_of_map_to_list].
    apply list_elem_of_fmap. exists (matched, mm).
    split; [done|]. by apply obj_get_Some_elem.
Qed.

Lemma demands_known deps d :
  deps ∈ dependencyObjects registry oldLock → d ∈ deps → d ∈ Demands.
Proof. intros Hdeps Hd. unfold demands. apply list_elem_of_join. eauto. Qed.

Lemma fanout_bound deps :
  deps ∈ dependencyObjects registry oldLock → length deps ≤ Fanout.
Proof.
  intros Hdeps. unfold fanout. apply max_list_elem_of_le.
  apply list_elem_of_fmap. eauto.
Qed.

(** The calls made by a call weigh, together, at most [fanout] budgets. *)
Lemma spawn_weight ref deps stack :
  deps ∈ dependencyObjects registry oldLock →
  sum_list_with (WeightOn stack) (spawn ref deps stack)
    ≤ Fanout * Budget (Open stack).
Proof.
  intros Hdeps.
  rewrite (sum_list_with_const _ (Budget (Open stack))).
  - assert (length (spawn ref deps stack) ≤ Fanout); [|nia].
    unfold spawn. rewrite length_map.
    etrans; [apply length_filter | by apply fanout_bound].
  - intros t Ht. apply weight_on_counted.
    unfold spawn in Ht.
    apply list_elem_of_fmap in Ht as [[dep range] [-> Hin]].
    apply list_elem_of_filter in Hin as [Hfree Hin]. simpl in *.
    unfold counts. simpl. rewrite Hfree. simpl.
    rewrite andb_true_r. apply bool_decide_eq_true.
    by apply (demands_known deps).
Qed.

Lemma weight_pos st t : 0 < Weight st t.
Proof. unfold weight, weight_on. lia. Qed.

Lemma weight_recordAndDescend t matched mm p st q :
  Weight (recordAndDescend t matched mm p st) q ≤ Weight st q.
Proof.
  unfold weight. rewrite stack_of_recordAndDescend.
  destruct (decide (t_stack q = t_stack t)) as [->|_]; [|done].
  apply weight_on_app.
Qed.

Section Coherent.
Hypothesis Hcoherent : coherent registry oldLock = true.

Lemma coherent_chosen name constraint manifest matched :
  (name, constraint) ∈ Demands →
  acquireManifest registry oldLock name constraint = Some manifest →
  chooseVersion manifest constraint = inr matched →
  satisfies matched constraint = true.
Proof.
  intros Hin Ha Hv. unfold coherent in Hcoherent.
  rewrite forallb_forall in Hcoherent.
  apply list_elem_of_In, Hcoherent in Hin. simpl in Hin.
  by rewrite Ha, Hv in Hin.
Qed.

(** Every call that runs lowers the measure: the frame it pushes closes its
    own demand, and the calls it makes are for demands still open. *)
Lemma step_measure st st' : Step st st' → Measure st' < Measure st.
Proof.
  intros (i & t & Hi & Hc).
  unfold measure at 2. rewrite (sum_list_with_lookup_delete _ _ _ _ Hi).
  set (st0 := with_pending (delete i (pending st)) st) in *.
  change (sum_list_with (Weight st) (delete i (pending st)))
    with (Measure st0).
  change (Weight st t) with (Weight st0 t).
  apply collectDeps_inv in Hc
    as (manifest & matched & mm & p & Ha & Hv & Hm & Hp & ->).
  assert (Measure (recordAndDescend t matched mm p st0)
          < Weight st0 t + Measure st0) as Hrec.
  { unfold measure at 1. simpl pending. rewrite sum_list_with_app.
    pose proof (dependencies_known _ _ _ _ _ Ha Hm) as Hdeps.
    set (stack := stack_of st0 (t_stack t)).
    set (stack' := stack ++ [frame_of (t_name t) matched mm]).
    assert (sum_list_with (Weight (recordAndDescend t matched mm p st0))
              (spawn (t_stack t) (default [] (m_dependencies mm)) stack')
            ≤ Fanout * Budget (Open stack')) as Hkids.
    { etrans; [|by apply (spawn_weight (t_stack t))].
      apply sum_list_with_le. intros q Hq. apply spawn_stack in Hq.
      unfold weight. rewrite stack_of_recordAndDescend, Hq.
      by rewrite decide_True. }
    assert (sum_list_with (Weight (recordAndDescend t matched mm p st0))
              (pending st0) ≤ Measure st0) as Hrest.
    { apply sum_list_with_le. intros q _. apply weight_recordAndDescend. }
    assert (Fanout * Budget (Open stack') < Weight st0 t) as Hself.
    { unfold weight, weight_on. fold stack.
      assert (Open stack' ≤ Open stack - (if Counts stack t then 1 else 0))
        as Hopen.
      { destruct (Counts stack t) eqn:Hcount.
        - unfold counts in Hcount.
          apply andb_true_iff in Hcount as [Hin Hfree].
          apply bool_decide_eq_true in Hin. apply negb_true_iff in Hfree.
          pose proof (coherent_chosen _ _ _ _ Hin Ha Hv) as Hsat.
          pose proof (open_app_lt stack [frame_of (t_name t) matched mm]
                        (t_name t, t_constraint t) Hin Hfree
                        (hasCirculation_pushed _ _ _ _ _ Hsat)).
          unfold stack'. lia.
        - pose proof (open_app_le stack [frame_of (t_name t) matched mm]).
          unfold stack'. lia. }
      apply budget_mono in Hopen.
      apply Nat.lt_succ_r, Nat.mul_le_mono_l, Hopen. }
    eapply Nat.le_lt_trans;
      [apply Nat.add_le_mono; [exact Hkids | exact Hrest] | lia]. }
  pose proof (weight_pos st0 t).
  destruct p; try exact Hrec. lia.
Qed.

Lemma all_sn st : sn Step st.
Proof.
  assert (∀ n st, Measure st < n → sn Step st) as Hwf;
    [|apply (Hwf (S (Measure st))); lia].
  clear st. induction n as [|n IH]; intros st Hlt; [lia|].
  constructor. intros st' Hstep. apply IH.
  apply step_measure in Hstep. lia.
Qed.

Lemma run_enough_fuel fuel st :
  Measure st ≤ fuel → run registry oldLock fuel st ≠ OutOfFuel.
Proof.
  revert st. induction fuel as [|fuel IH]; intros st Hle.
  - simpl. destruct (pending st) as [|t rest] eqn:Hp; [done|].
    unfold measure in Hle. rewrite Hp in Hle. simpl in Hle.
    pose proof (weight_pos st t). lia.
  - simpl. destruct (pending st) as [|t rest] eqn:Hp; [done|].
    destruct (collectDeps _ _ t _) as [e|st'] eqn:Hc; [done|].
    apply IH.
    assert (Step st st') as Hstep.
    { exists 0, t. rewrite Hp. done. }
    apply step_measure in Hstep. lia.
Qed.

Lemma resolveField_enough_fuel fuel field st :
  Measure (rootCalls (default [] field) initial) ≤ fuel →
  resolveField registry oldLock fuel field st ≠ OutOfFuel.
Proof.
  intros Hle. destruct field as [deps|]; simpl; [|done].
  pose proof (run_enough_fuel fuel (rootCalls deps st) Hle).
  by destruct (run _ _ _ _).
Qed.

End Coherent.

(** X19 (termination).  When the version chosen for each demand satisfies the range
    of the demand, every schedule of the pending calls is finite, cyclic
    dependencies included: the calls below a call are only made for the
    demands that [hasCirculation] finds open on the stack, and the frame
    that a call pushes closes its own demand.  In particular the default
    export returns, with a plan or with an error, for every manifest. *)
Theorem resolution_terminates :
  coherent registry oldLock = true →
  (∀ st, sn Step st) ∧
  (∀ rootManifest, ∃ fuel, ∀ st,
     listDefault registry oldLock fuel rootManifest st ≠ OutOfFuel).
Proof.
  intros Hcoherent. split; [by apply all_sn|].
  intros rootManifest.
  exists (Measure (rootCalls (default [] (pj_dependencies rootManifest)) initial)
          `max`
          Measure (rootCalls (default [] (pj_devDependencies rootManifest))
                     initial)).
  intros st. unfold listDefault.
  destruct (resolveField _ _ _ (pj_dependencies rootManifest) st)
    as [|e|[dependencies st1]] eqn:H1.
  - by apply resolveField_enough_fuel in H1; [|done|lia].
  - done.
  - destruct (resolveField _ _ _ (pj_devDependencies rootManifest) st1)
      as [|e|[devDependencies st2]] eqn:H2; [|done..].
    by apply resolveField_enough_fuel in H2; [|done|lia].
Qed.

End Termination.

Local Close Scope nat_scope.

(** ** A cycle that the stack scan does not close *)

Section PrereleaseLoop.
Import Examples.
Context `{Semver}.
Hypothesis prerelease_outside_empty_range :
  satisfies "1.0.0-beta" "" = false.

Local Abbreviation Collect := (collectDeps prerelease_loop ∅).
Local Abbreviation Run := (run prerelease_loop ∅).

Lemma prerelease_frames_open stack :
  Forall (λ fr, f_version fr = "1.0.0-beta") stack →
  hasCirculation "P" "" stack = false.
Proof.
  induction 1 as [|fr stack Hfr _ IH]; [done|]. simpl.
  by rewrite Hfr, prerelease_outside_empty_range, andb_false_r, IH.
Qed.

Lemma spawn_self stack :
  Forall (λ fr, f_version fr = "1.0.0-beta") stack →
  spawn 0 [("P", "")] stack = [self_call].
Proof.
  intros Hfr. unfold spawn. rewrite filter_cons, decide_True; [done|].
  by apply prerelease_frames_open.
Qed.

Lemma looping_recorded p st :
  (p = PlaceTop ∨
   ∃ url, topLevel st !! "P" =
            Some {| top_url := url; top_version := "1.0.0-beta" |}) →
  Forall (λ fr, f_version fr = "1.0.0-beta") (stack_of st 0) →
  pending st = [] →
  looping (recordAndDescend
             {| t_name := "P"; t_constraint := ""; t_stack := 0;
                t_root := match p with PlaceTop => true | _ => false end |}
             "1.0.0-beta" prerelease_manifest p st).
Proof.
  intros Htop Hfr Hpend.
  assert (Forall (λ fr, f_version fr = "1.0.0-beta")
            (stack_of st 0 ++
               [{| f_name := "P"; f_version := "1.0.0-beta";
                   f_dependencies := [("P", "")] |}])) as Hfr'
    by (apply Forall_app; split; [done | by repeat constructor]).
  split; [|split; [|split]].
  - cbn -[spawn]. by rewrite (spawn_self _ Hfr'), Hpend.
  - destruct Htop as [->|[url Hurl]].
    + eexists. cbn. by rewrite lookup_insert_eq.
    + destruct p; [eexists; cbn; by rewrite lookup_insert_eq | by exists url..].
  - unfold stack_of at 1. cbn. rewrite lookup_insert_eq. cbn.
    by destruct (stack_of st 0).
  - unfold stack_of at 1. cbn. rewrite lookup_insert_eq. exact Hfr'.
Qed.

Lemma looping_start :
  ∃ st, Collect (rootCall "P" "" 0)
          (with_pending [] (rootCalls [("P", "")] initial)) = inr st ∧
        looping st.
Proof.
  exists (recordAndDescend (rootCall "P" "" 0) "1.0.0-beta"
            prerelease_manifest PlaceTop
            (with_pending [] (rootCalls [("P", "")] initial))).
  split; [vm_compute; reflexivity|].
  apply (looping_recorded PlaceTop); [by left | constructor | done].
Qed.

Lemma looping_step st :
  looping st →
  ∃ st', Collect self_call (with_pending [] st) = inr st' ∧ looping st'.
Proof.
  intros (Hpend & [url Htop] & Hne & Hfr).
  destruct (last (stack_of st 0)) as [parent|] eqn:Hlast;
    [|by apply last_None in Hlast].
  exists (recordAndDescend self_call "1.0.0-beta" prerelease_manifest
            (PlaceUnderParent (f_name parent)) (with_pending [] st)).
  split.
  - assert (acquireManifest prerelease_loop ∅ "P" "" =
            Some [published "P" "1.0.0-beta" [("P", "")]]) as Ha
      by (vm_compute; reflexivity).
    unfold collectDeps, placement. cbn [t_name t_constraint t_stack self_call].
    rewrite Ha. cbn [topLevel with_pending].
    rewrite Htop. cbn. rewrite prerelease_outside_empty_range.
    change (stack_of (with_pending [] st) 0) with (stack_of st 0).
    by rewrite Hlast.
  - apply (looping_recorded (PlaceUnderParent (f_name parent)));
      [right; by exists url | done | done].
Qed.

Lemma looping_run st fuel : looping st → Run fuel st = OutOfFuel.
Proof.
  revert st. induction fuel as [|fuel IH]; intros st Hst.
  - destruct Hst as [Hpend _]. simpl. by rewrite Hpend.
  - destruct (looping_step st Hst) as (st' & Hc & Hst').
    destruct Hst as [Hpend _]. simpl. rewrite Hpend, Hc. by apply IH.
Qed.

Lemma looping_not_sn st : looping st → ¬ sn (step prerelease_loop ∅) st.
Proof.
  intros Hst Hsn. induction Hsn as [st _ IH].
  destruct (looping_step st Hst) as (st' & Hc & Hst').
  apply (IH st'); [|done].
  destruct Hst as [Hpend _]. exists 0%nat, self_call. by rewrite Hpend.
Qed.

(** C5 (defect of the source).  [P] has a single version, the prerelease
    [1.0.0-beta], which depends on [P] with an empty range, and semver does
    not let a prerelease satisfy the empty range.  For an empty range the
    version is the last key of the manifest, whether or not it satisfies the
    range: the frame pushed for [P] does not stop [hasCirculation], and the
    call for [P] makes a call for [P] again, for ever.  The default export
    returns with no amount of fuel, and the calls it makes have an infinite
    schedule. *)
Theorem prerelease_self_cycle_never_returns :
  (∀ fuel,
     listDefault prerelease_loop ∅ fuel
       {| pj_dependencies := Some [("P", "")];
          pj_devDependencies := None |} initial = OutOfFuel) ∧
  ¬ sn (step prerelease_loop ∅) (rootCalls [("P", "")] initial).
Proof.
  destruct looping_start as (st & Hc & Hst). split.
  - intros fuel.
    assert (Run fuel (rootCalls [("P", "")] initial) = OutOfFuel) as Hrun.
    { destruct fuel as [|fuel]; [done|].
      change (Run (S fuel) (rootCalls [("P", "")] initial))
        with (match Collect (rootCall "P" "" 0)
                      (with_pending [] (rootCalls [("P", "")] initial)) with
              | inl e => Rejected e
              | inr st' => Run fuel st'
              end).
      rewrite Hc. by apply looping_run. }
    unfold listDefault, resolveField. cbn [pj_dependencies].
    by rewrite Hrun.
  - intros Hsn. apply (looping_not_sn st Hst).
    eapply sn_step; [exact Hsn|].
    by exists 0%nat, (rootCall "P" "" 0).
Qed.

End PrereleaseLoop.
(** * The properties on concrete registries *)

Section Concrete.
Import Examples.
Existing Instance NodeSemver.semver.



Lemma topLevel_first_binding_wins_witness :
  let st := after cycle ∅ (rootCall "A" "" 0) initial in
  let st' := finish cycle ∅ 8 st in
  (pending st ≠ [] ∧ pending st' = []) ∧
  topLevel st' !! "A" =
    Some {| top_url := "https://registry/A/-/A-1.0.0.tgz";
            top_version := "1.0.0" |} ∧
  (∀ constraint matched stack,
     placement "A" constraint matched stack (topLevel st') ≠ inr PlaceTop) ∧
  (∀ t st'',
     t_name t = "A" → collectDeps cycle ∅ t st' = inr st'' →
     topLevel st'' = topLevel st').
Proof.
  intros st st'. split; [split; [vm_compute; discriminate|vm_compute; reflexivity]|].
  apply (topLevel_first_binding_wins cycle ∅ st st').
  - apply rtc_step_progress, (run_schedule cycle ∅ 8). vm_compute. reflexivity.
  - vm_compute. reflexivity.
Defined.





Lemma locked_request_replays_lock_witness :
  getItem lock_s5 "A" "^1.0.0" = Some (synthetic locked_item) ∧
  (∀ registry,
     acquireManifest registry lock_s5 "A" "^1.0.0" =
     Some (synthetic locked_item)) ∧
  chooseVersion (synthetic locked_item) "^1.0.0" = inl NotAFunction ∧
  install registry_s5 lock_s5 8 (manifest_of [("A", "^1.0.0")] []) =
    Rejected NotAFunction ∧
  chooseVersion (synthetic locked_item) "" = inr "1.2.3" ∧
  (fst <$> (fst <$> plan (install registry_s5 lock_empty_range 8
                            (manifest_of [("A", "")] [])))) =
    Some [("A", {| top_url := "https://registry/A/-/A-1.2.3.tgz";
                   top_version := "1.2.3" |})] ∧
  getItem lock_s5 "B" "^1.0.0" = None.
Proof.
  pose proof (locked_request_replays_lock lock_s5 "A" "^1.0.0") as Hlocked.
  pose proof (locked_request_replays_lock lock_empty_range "A" "") as Hempty.
  pose proof (locked_request_replays_lock lock_s5 "B" "^1.0.0") as Habsent.
  assert (lock_s5 !! lockKey "A" "^1.0.0" = Some locked_item) as Hl
    by (vm_compute; reflexivity).
  assert (lock_empty_range !! lockKey "A" "" = Some locked_item) as He
    by (vm_compute; reflexivity).
  assert (lock_s5 !! lockKey "B" "^1.0.0" = None) as Hn
    by (vm_compute; reflexivity).
  rewrite Hl in Hlocked. rewrite He in Hempty. rewrite Hn in Habsent.
  destruct Hlocked as (Hget & _ & _ & Hacq & _ & Hthrows).
  destruct Hempty as (_ & _ & _ & _ & Hpick & _).
  split; [exact Hget|]. split; [exact Hacq|].
  split; [by apply Hthrows|]. split; [vm_compute; reflexivity|].
  split; [by apply Hpick|]. split; [vm_compute; reflexivity | exact Habsent].
Defined.

(** On the cycles of scenario S3 and on a package that depends on itself,
    every schedule is finite. *)
Lemma cycles_terminate :
  coherent cycle ∅ = true ∧
  (∀ st, sn (step cycle ∅) st) ∧
  (∀ rootManifest, ∃ fuel, ∀ st,
     listDefault cycle ∅ fuel rootManifest st ≠ OutOfFuel).
Proof.
  assert (coherent cycle ∅ = true) as Hco by (vm_compute; reflexivity).
  split; [exact Hco|]. exact (resolution_terminates cycle ∅ Hco).
Defined.

(** The registry of the prerelease is not coherent. *)
Lemma prerelease_loop_not_coherent : coherent prerelease_loop ∅ = false.
Proof. vm_compute. reflexivity. Qed.

Lemma prerelease_self_cycle_never_returns_witness :
  satisfies "1.0.0-beta" "" = false ∧
  (∀ fuel,
     listDefault prerelease_loop ∅ fuel
       {| pj_dependencies := Some [("P", "")];
          pj_devDependencies := None |} initial = OutOfFuel) ∧
  ¬ sn (step prerelease_loop ∅) (rootCalls [("P", "")] initial).
Proof.
  assert (satisfies "1.0.0-beta" "" = false) as Hpre
    by (vm_compute; reflexivity).
  split; [exact Hpre|].
  exact (prerelease_self_cycle_never_returns Hpre).
Defined.

Lemma writeLock_insertion_order_witness :
  lock_object lock_ba ∧ same_contents lock_ba lock_ab ∧
  writeLock (dump_lines "") lock_ba = writeLock (dump_lines "") lock_ab.
Proof.
  assert (lock_object lock_ba) as Hobj.
  { split; [|repeat apply Forall_cons_2; [..|apply Forall_nil_2]];
      apply (bool_decide_unpack _); vm_compute; exact I. }
  assert (same_contents lock_ba lock_ab) as Hsame.
  { exists (reverse lock_ba). split; [apply Permutation_swap|].
    repeat constructor. }
  split; [exact Hobj|]. split; [exact Hsame|].
  apply (writeLock_insertion_order (dump_lines "") lock_ba lock_ab Hobj Hsame).
Defined.

End Concrete.

(** * Further properties of the resolver *)

(** ** The scans and the placement decision, for every stack *)

Section ScanResults.
Context `{Semver}.

Lemma compatible_frame_false name version fr :
  compatible_frame name version fr = false ↔
  (∃ range, obj_get name (f_dependencies fr) = Some range ∧
            range ≠ "" ∧ satisfies version range = false) ∨
  (obj_get name (f_dependencies fr) = None ∧ inherited name = true).
Proof.
  unfold compatible_frame, truthy.
  destruct (obj_get name (f_dependencies fr)) as [range|].
  - destruct (String.eqb_spec range "") as [->|Hne]; simpl.
    + split; [done | by intros [(? & [= <-] & ? & _)|[? _]]].
    + split; [left; by exists range|].
      by intros [(? & [= <-] & _ & ?)|[? _]].
  - destruct (inherited name); simpl.
    + split; [by right | done].
    + split; [done | by intros [(? & ? & _)|[_ ?]]].
Qed.

(** X1.  [checkStackDependencies] returns an index of the stack or -1.  A
    frame fails the callback of [findIndex] when [dependencies[name]] is a
    non-empty range that [version] does not satisfy, or when [dependencies]
    does not list [name] and [name] is a member of [Object.prototype]
    ([constructor], [toString], ...), which [dependencies[name]] then finds.
    The function returns [i] exactly when frame [i] is the first frame that
    does not fail, and -1 exactly when every frame fails; in particular it
    returns -1 on the empty stack. *)
Theorem checkStackDependencies_result name version stack :
  let failing fr :=
    (∃ range, obj_get name (f_dependencies fr) = Some range ∧
              range ≠ "" ∧ satisfies version range = false) ∨
    (obj_get name (f_dependencies fr) = None ∧ inherited name = true) in
  -1 ≤ checkStackDependencies name version stack < Z.of_nat (length stack) ∧
  (checkStackDependencies name version stack = -1 ↔ Forall failing stack) ∧
  (∀ i : nat,
     checkStackDependencies name version stack = Z.of_nat i ↔
     (∃ fr, stack !! i = Some fr ∧ ¬ failing fr) ∧
     (∀ j fr, (j < i)%nat → stack !! j = Some fr → failing fr)) ∧
  checkStackDependencies name version [] = -1.
Proof.
  intros failing.
  assert (∀ fr, compatible_frame name version fr = true ↔ ¬ failing fr)
    as Hcompat.
  { intros fr. unfold failing. rewrite <- compatible_frame_false.
    by destruct (compatible_frame name version fr). }
  split; [apply findIndex_range|]. split; [|split; [|done]].
  - unfold checkStackDependencies. rewrite findIndex_none.
    apply Forall_iff. intros fr. apply compatible_frame_false.
  - intros i. unfold checkStackDependencies. rewrite findIndex_first.
    split; intros [(fr & Hfr & Hc) Hmin]; (split; [exists fr; split; [done|]|]).
    + by apply Hcompat.
    + intros j fr' Hj Hfr'. by apply compatible_frame_false, (Hmin j).
    + by apply Hcompat.
    + intros j fr' Hj Hfr'. by apply compatible_frame_false, (Hmin j).
Qed.

(** X3.  The placement decision throws in one case only: the name is bound
    at the top level to a version that does not satisfy the range and the
    stack is empty (line 65 reads the last frame); the error is then a
    [TypeError]. *)
Theorem placement_throws_iff name constraint matched stack top e :
  placement name constraint matched stack top = inl e ↔
  e = TypeError ∧ stack = [] ∧
  ∃ bound, top !! name = Some bound ∧
           satisfies (top_version bound) constraint = false.
Proof.
  unfold placement. destruct (top !! name) as [bound|].
  - destruct (satisfies (top_version bound) constraint) eqn:Hs.
    + split; [by destruct (_ =? _)|].
      intros (_ & _ & ? & [= <-] & ?). congruence.
    + destruct stack as [|fr stack] using rev_ind.
      * split; [intros [= <-]; eauto | by intros [-> _]].
      * rewrite last_snoc.
        split; [done|]. intros (_ & Hnil & _). by destruct stack.
  - split; [done | by intros (_ & _ & ? & ? & _)].
Qed.

(** X4.  When the placement nests a package because of the scan, the index
    that the scan returned is an index of the stack, and the recorded parent
    joins a non-empty suffix of the names on the stack: from index [i - 2]
    when [i] is 2 or more, and the last [2 - i] names (or all of them, on a
    shorter stack) when [i] is 0 or 1. *)
Theorem placement_under_conflict name constraint matched stack top i parent :
  placement name constraint matched stack top =
    inr (PlaceUnderConflict i parent) →
  0 ≤ i < Z.of_nat (length stack) ∧
  i = checkStackDependencies name matched stack ∧
  ∃ k : nat,
    (k < length stack)%nat ∧
    k = (if i <? 2 then (length stack - Z.to_nat (2 - i))%nat
         else Z.to_nat (i - 2)) ∧
    parent = join "/node_modules/" (drop k (map f_name stack)).
Proof.
  unfold placement. destruct (top !! name) as [bound|]; [|done].
  destruct (satisfies _ _); [|by destruct (last stack)].
  pose proof (findIndex_range (compatible_frame name matched) stack) as Hr.
  fold (checkStackDependencies name matched stack) in Hr.
  destruct (Z.eqb_spec (checkStackDependencies name matched stack) (-1))
    as [|Hne]; [done|].
  intros [= <- <-]. split; [lia|]. split; [done|].
  set (i := checkStackDependencies name matched stack) in *.
  destruct (Z.ltb_spec i 2) as [Hlt|Hge].
  - exists (length stack - Z.to_nat (2 - i))%nat.
    split; [lia|]. split; [done|].
    by rewrite parent_below_two by lia.
  - exists (Z.to_nat (i - 2)). split; [lia|]. split; [done|].
    rewrite <- (Z2Nat.id (i - 2)) at 1 by lia. by rewrite slice_nonneg.
Qed.

End ScanResults.
(** ** How a call of [collectDeps] ends *)

(** The chosen version is a key of the manifest. *)
Lemma chooseVersion_listed manifest constraint matched :
  chooseVersion manifest constraint = inr matched →
  is_Some (obj_get matched manifest).
Proof.
  intros Hv. apply obj_get_keys. unfold chooseVersion in Hv.
  destruct (truthy constraint); [done|].
  destruct (last _) as [v|] eqn:Hlast; [|done].
  destruct (truthy v); [|done]. injection Hv as <-.
  by apply last_Some_elem_of.
Qed.

Section CallResults.
Context `{Semver}.
Variable registry : gmap string Manifest.
Variable oldLock : gmap string LockEntry.

Local Abbreviation Acquire := (acquireManifest registry oldLock).
Local Abbreviation Collect := (collectDeps registry oldLock).

Lemma placement_error name constraint matched stack top e :
  placement name constraint matched stack top = inl e →
  e = TypeError ∧ stack = [] ∧
  ∃ bound, top !! name = Some bound ∧
           satisfies (top_version bound) constraint = false.
Proof.
  unfold placement. destruct (top !! name) as [bound|]; [|done].
  destruct (satisfies _ _) eqn:Hs; [by destruct (_ =? _)|].
  destruct stack as [|fr stack _] using rev_ind.
  - intros [= <-]. eauto.
  - by rewrite last_snoc.
Qed.

(** X2.  A demand made on an empty stack, as every root call is, for a name
    that is bound at the top level to a version satisfying the range, leaves
    the whole state as it was if the call returns: no entry of the plan, no
    lock entry, no frame, no further call and no returned value. *)
Theorem covered_root_demand_changes_nothing t st st' bound :
  stack_of st (t_stack t) = [] →
  topLevel st !! t_name t = Some bound →
  satisfies (top_version bound) (t_constraint t) = true →
  Collect t st = inr st' →
  st' = st.
Proof.
  intros Hstack Hb Hs
    (manifest & matched & mm & p & _ & _ & _ & Hp & ->)%collectDeps_inv.
  unfold placement in Hp. rewrite Hb, Hs, Hstack in Hp. simpl in Hp.
  by injection Hp as <-.
Qed.

(** X5.  How a call is rejected before the placement.  It is rejected by
    the registry exactly when its request is absent from the old lock and
    its package is absent from the registry (a locked request never needs
    the registry).  It is rejected at line 40, where [semver.maxSatisying]
    is not a function, exactly when a manifest was acquired and the range is
    not empty.  It throws the [Error] of line 43 exactly when a manifest was
    acquired, the range is empty and the manifest has no last key that is
    truthy. *)
Theorem collectDeps_rejections t st :
  (Collect t st = inl RegistryFailure ↔
   oldLock !! lockKey (t_name t) (t_constraint t) = None ∧
   registry !! t_name t = None) ∧
  (Collect t st = inl NotAFunction ↔
   is_Some (Acquire (t_name t) (t_constraint t)) ∧ t_constraint t ≠ "") ∧
  (Collect t st = inl NoMatchingVersion ↔
   ∃ manifest,
     Acquire (t_name t) (t_constraint t) = Some manifest ∧
     t_constraint t = "" ∧
     (last (obj_keys manifest) = None ∨
      last (obj_keys manifest) = Some "")).
Proof.
  assert (Acquire (t_name t) (t_constraint t) = None ↔
          oldLock !! lockKey (t_name t) (t_constraint t) = None ∧
          registry !! t_name t = None) as Hmiss.
  { unfold acquireManifest, getItem.
    destruct (oldLock !! _); [split; [done | by intros [? _]]|].
    destruct (registry !! _); [split; [done | by intros [_ ?]]|done]. }
  unfold collectDeps.
  destruct (Acquire (t_name t) (t_constraint t)) as [manifest|] eqn:Ha.
  - assert (∀ matched mm,
              match placement (t_name t) (t_constraint t) matched
                      (stack_of st (t_stack t)) (topLevel st) with
              | inl e => inl e
              | inr PlaceCovered => inr st
              | inr p => inr (recordAndDescend t matched mm p st)
              end ≠ inl RegistryFailure ∧
              match placement (t_name t) (t_constraint t) matched
                      (stack_of st (t_stack t)) (topLevel st) with
              | inl e => inl e
              | inr PlaceCovered => inr st
              | inr p => inr (recordAndDescend t matched mm p st)
              end ≠ inl NotAFunction ∧
              match placement (t_name t) (t_constraint t) matched
                      (stack_of st (t_stack t)) (topLevel st) with
              | inl e => inl e
              | inr PlaceCovered => inr st
              | inr p => inr (recordAndDescend t matched mm p st)
              end ≠ inl NoMatchingVersion) as Hplace.
    { intros matched mm.
      destruct (placement _ _ _ _ _) as [e|p] eqn:Hp; [|by destruct p].
      by apply placement_error in Hp as [-> _]. }
    unfold chooseVersion, truthy.
    destruct (String.eqb_spec (t_constraint t) "") as [Hc|Hc]; simpl.
    + destruct (last (obj_keys manifest)) as [v|] eqn:Hlast.
      * destruct (String.eqb_spec v "") as [->|Hv]; simpl.
        -- split; [split; [done | intros Hm%Hmiss; done]|].
           split; [split; [done | by intros [_ ?]]|].
           split; [intros _; exists manifest; auto|done].
        -- destruct (obj_get v manifest) as [mm|].
           ++ destruct (Hplace v mm) as (H1 & H2 & H3).
              split; [split; [done | intros Hm%Hmiss; done]|].
              split; [split; [done | by intros [_ ?]]|].
              split; [done|].
              intros (m & [= <-] & _ & [?|?]); congruence.
           ++ split; [split; [done | intros Hm%Hmiss; done]|].
              split; [split; [done | by intros [_ ?]]|].
              split; [done|].
              intros (m & [= <-] & _ & [?|?]); congruence.
      * split; [split; [done | intros Hm%Hmiss; done]|].
        split; [split; [done | by intros [_ ?]]|].
        split; [intros _; exists manifest; auto|done].
    + split; [split; [done | intros Hm%Hmiss; done]|].
      split; [split; [done|done]|].
      split; [done | by intros (m & _ & ? & _)].
  - split; [split; [by intros _; apply Hmiss | done]|].
    split; [split; [done | by intros [[? ?] _]]|].
    split; [done | by intros (? & ? & _)].
Qed.

(** X6.  The only [TypeError] of a property read from [undefined] is the
    one of line 65: a call ends with it exactly when a version is chosen
    (the range is then empty), the name is bound at the top level to a
    version that does not satisfy the range, and the stack of the call is
    empty.  The rejection of line 40 is another error, [NotAFunction]. *)
Theorem collectDeps_type_error t st :
  Collect t st = inl TypeError ↔
  ∃ matched mm bound,
    chosen registry oldLock (t_name t) (t_constraint t) matched mm ∧
    topLevel st !! t_name t = Some bound ∧
    satisfies (top_version bound) (t_constraint t) = false ∧
    stack_of st (t_stack t) = [].
Proof.
  unfold collectDeps, chosen.
  destruct (Acquire _ _) as [manifest|];
    [|split; [done | by intros (? & ? & ? & (? & ? & _) & _)]].
  destruct (chooseVersion manifest _) as [e|matched] eqn:Hv.
  - split.
    + intros [= ->]. unfold chooseVersion in Hv.
      destruct (truthy _); [done|].
      destruct (last _) as [v|]; [|done]. by destruct (truthy v).
    + intros (? & ? & ? & (? & [= <-] & ? & _) & _). congruence.
  - destruct (chooseVersion_listed _ _ _ Hv) as [mm Hm]. rewrite Hm.
    destruct (placement _ _ _ _ _) as [e|p] eqn:Hp.
    + apply placement_error in Hp as (-> & Hstack & bound & Hb & Hs).
      split; [|done]. intros _. exists matched, mm, bound.
      split; [by exists manifest | done].
    + split; [by destruct p|].
      intros (v & mm' & bound & (m & Hm' & Hc & _) & Hb & Hs & Hstack).
      injection Hm' as <-. rewrite Hv in Hc. injection Hc as <-.
      rewrite Hstack in Hp.
      rewrite (placement_incompatible_empty_stack _ _ _ _ _ Hb Hs) in Hp.
      done.
Qed.

End CallResults.

(** ** The lock store and the plan along a run *)

Lemma obj_set_twice {V} (k : string) (v v' : V) (o : JsObject V) :
  obj_set k v (obj_set k v' o) = obj_set k v o.
Proof.
  induction o as [|[k' w] o IH]; simpl.
  - by rewrite String.eqb_refl.
  - destruct (String.eqb k' k) eqn:Hk; simpl; rewrite Hk; [done|].
    by rewrite IH.
Qed.

Lemma Forall_obj_set {V} (P : string * V → Prop) k v (o : JsObject V) :
  P (k, v) → Forall P o → Forall P (obj_set k v o).
Proof.
  intros Hkv. induction 1 as [|[k' w] o Hw Ho IH]; simpl.
  - by constructor.
  - destruct (String.eqb_spec k' k) as [->|]; by constructor.
Qed.

Lemma obj_keys_set_prefix {V} (k : string) (v : V) (o : JsObject V) :
  obj_keys o `prefix_of` obj_keys (obj_set k v o).
Proof.
  rewrite obj_keys_set. destruct (decide (k ∈ obj_keys o)); [done|].
  by apply prefix_app_r.
Qed.

(** X7.  [updateOrCreate] on the new lock: the entry written is the one read
    back under its key, the entries under the other keys are untouched, a key
    that is already there keeps its place in the order of the keys and a new
    one goes last, and of two writes under one key the second one wins. *)
Theorem updateOrCreate_lookup name info lock :
  (∀ key, obj_get key (updateOrCreate name info lock) =
          if decide (key = name) then Some info else obj_get key lock) ∧
  obj_keys (updateOrCreate name info lock) =
    (if decide (name ∈ obj_keys lock) then obj_keys lock
     else obj_keys lock ++ [name]) ∧
  (∀ info', updateOrCreate name info (updateOrCreate name info' lock) =
            updateOrCreate name info lock).
Proof.
  unfold updateOrCreate. split; [|split].
  - intros key. destruct (decide (key = name)) as [->|Hne].
    + apply obj_get_set_eq.
    + by apply obj_get_set_ne.
  - apply obj_keys_set.
  - intros info'. apply obj_set_twice.
Qed.

Section RunInvariants.
Context `{Semver}.
Variable registry : gmap string Manifest.
Variable oldLock : gmap string LockEntry.

Local Abbreviation Acquire := (acquireManifest registry oldLock).
Local Abbreviation Collect := (collectDeps registry oldLock).
Local Abbreviation Step := (step registry oldLock).
Local Abbreviation Progress := (progress registry oldLock).
Local Abbreviation Recorded := (recorded registry oldLock).

(** X8.  Throughout a run of the default export, under any schedule, every
    entry of the new lock is the record of a choice: its key is
    ["<name>@<constraint>"] for a demand whose manifest was acquired, and it
    holds the version chosen for that demand with the tarball, the shasum
    and the dependencies that the manifest lists for that version. *)
Theorem newLock_records_choices st st' :
  rtc (progress registry oldLock) st st' →
  Forall (recorded registry oldLock) (newLock st) →
  Forall (recorded registry oldLock) (newLock st').
Proof.
  intros Hrun Hall. induction Hrun as [|st st1 st' Hp _ IH]; [done|].
  apply IH. destruct Hp as [st0 st1 (i & t & _ & Hc)|deps st0 _]; [|done].
  apply collectDeps_inv in Hc
    as (manifest & matched & mm & p & Ha & Hv & Hm & _ & ->).
  assert (Recorded (lockKey (t_name t) (t_constraint t),
                    lockEntry_of matched mm)) as Hnew.
  { exists (t_name t), (t_constraint t), matched, mm.
    split; [by exists manifest | done]. }
  destruct p; simpl; try done; by apply Forall_obj_set.
Qed.

(** X9.  The keys of the new lock only grow: along a run the list of keys
    is extended at its end, no key is removed or moved, and no key is listed
    twice. *)
Theorem newLock_keys_only_grow st st' :
  rtc Progress st st' →
  NoDup (obj_keys (newLock st)) →
  NoDup (obj_keys (newLock st')) ∧
  obj_keys (newLock st) `prefix_of` obj_keys (newLock st').
Proof.
  intros Hrun. induction Hrun as [|st st1 st' Hp _ IH]; [done|].
  intros Hnd.
  destruct IH as [Hnd' Hpre]; [by apply (progress_newLock_keys _ _ _ _ Hp)|].
  split; [done|]. etrans; [|exact Hpre].
  destruct Hp as [st0 st1 (i & t & _ & Hc)|deps st0 _]; [|done].
  apply collectDeps_inv in Hc
    as (manifest & matched & mm & p & _ & _ & _ & _ & ->).
  destruct p; simpl; try done; apply obj_keys_set_prefix.
Qed.

(** X10.  Nothing is ever popped.  While the calls made for one field of
    the manifest run, under any schedule, every stack array, the list
    [unsatisfied] and the list of the values for the driver are only
    extended at their end. *)
Theorem stacks_only_grow st st' :
  rtc Step st st' →
  (∀ ref, stack_of st ref `prefix_of` stack_of st' ref) ∧
  unsatisfied st `prefix_of` unsatisfied st' ∧
  returned st `prefix_of` returned st'.
Proof.
  intros Hrun. split; [intros ref; by apply (rtc_step_stack_prefix registry oldLock)|].
  induction Hrun as [|st st1 st' Hs _ [IHu IHr]]; [done|].
  destruct Hs as (i & t & _ & Hc).
  apply collectDeps_inv in Hc
    as (manifest & matched & mm & p & _ & _ & _ & _ & ->).
  split.
  - etrans; [|exact IHu].
    destruct p; simpl; try done; by apply prefix_app_r.
  - etrans; [|exact IHr].
    destruct p; simpl; try done;
      (destruct (_ && _); [by apply prefix_app_r | done]).
Qed.

Lemma hasCirculation_prefix name range (stack stack' : DependencyStack) :
  stack `prefix_of` stack' →
  hasCirculation name range stack = true →
  hasCirculation name range stack' = true.
Proof.
  intros [more ->] Hc. rewrite hasCirculation_app, Hc. done.
Qed.

(** X11.  A demand that some frame of a stack array closes stays closed on
    that array, whichever call pushed the frame: from then on no call that
    works on the array calls [collectDeps] for that demand again. *)
Theorem closed_demand_is_never_called_again st st' ref dep range :
  rtc Step st st' →
  hasCirculation dep range (stack_of st ref) = true →
  hasCirculation dep range (stack_of st' ref) = true ∧
  ∀ i t st'',
    pending st' !! i = Some t →
    t_stack t = ref →
    Collect t (with_pending (delete i (pending st')) st') = inr st'' →
    ∃ calls,
      pending st'' = calls ++ delete i (pending st') ∧
      Forall (λ c, (t_name c, t_constraint c) ≠ (dep, range)) calls.
Proof.
  intros Hrun Hclosed.
  assert (hasCirculation dep range (stack_of st' ref) = true) as Hclosed'.
  { eapply hasCirculation_prefix; [|exact Hclosed].
    by apply (rtc_step_stack_prefix registry oldLock). }
  split; [done|]. intros i t st'' _ Href Hc.
  apply collectDeps_inv in Hc
    as (manifest & matched & mm & p & _ & _ & _ & _ & ->).
  assert (Forall (λ c, (t_name c, t_constraint c) ≠ (dep, range))
            (spawn (t_stack t) (default [] (m_dependencies mm))
               (stack_of st' (t_stack t)
                  ++ [frame_of (t_name t) matched mm]))) as Hcalls.
  { apply Forall_forall. intros c Hin.
    unfold spawn in Hin.
    apply list_elem_of_fmap in Hin as [[d r] [-> Hin]].
    apply list_elem_of_filter in Hin as [Hopen _]. simpl.
    intros [= -> ->]. rewrite hasCirculation_app, Href, Hclosed' in Hopen.
    done. }
  destruct p; [eexists; split; [reflexivity | exact Hcalls]
              |exists []; by split
              |eexists; split; [reflexivity | exact Hcalls]..].
Qed.

End RunInvariants.

(** ** Nested calls, the plan and the manifest *)

Section PlanInvariants.
Context `{Semver}.
Variable registry : gmap string Manifest.
Variable oldLock : gmap string LockEntry.

Local Abbreviation Acquire := (acquireManifest registry oldLock).
Local Abbreviation Collect := (collectDeps registry oldLock).
Local Abbreviation Step := (step registry oldLock).
Local Abbreviation Progress := (progress registry oldLock).

(** X12.  Throughout a run, a call made by another call (line 88) finds at
    least one frame on its stack array.  Its placement therefore never
    throws: line 65 always finds a last frame to read, and such a call never
    ends with the [TypeError] of a property read from [undefined].  (It can
    still be rejected by the registry, at line 40 when its range is not
    empty, or at line 43.) *)
Theorem nested_call_finds_a_frame st st' i t :
  rtc Progress st st' →
  nested_on_frames st →
  pending st' !! i = Some t →
  t_root t = false →
  stack_of st' (t_stack t) ≠ [] ∧
  (∀ matched e,
     placement (t_name t) (t_constraint t) matched
       (stack_of st' (t_stack t)) (topLevel st') ≠ inl e) ∧
  Collect t (with_pending (delete i (pending st')) st') ≠ inl TypeError.
Proof.
  intros Hrun Hall Hi Hroot.
  assert (nested_on_frames st') as Hall'.
  { induction Hrun as [|st st1 st' Hp _ IH]; [done|].
    apply IH; [|done].
    by apply (progress_nested_on_frames registry oldLock st). }
  assert (stack_of st' (t_stack t) ≠ []) as Hstack.
  { unfold nested_on_frames in Hall'. rewrite Forall_forall in Hall'.
    apply Hall'; [|done]. by apply list_elem_of_lookup_2 in Hi. }
  split; [done|]. split.
  - by intros matched e (_ & Hnil & _)%placement_error.
  - unfold collectDeps.
    destruct (Acquire _ _) as [manifest|]; [|done].
    destruct (chooseVersion _ _) as [e|matched] eqn:Hv.
    + unfold chooseVersion in Hv. destruct (truthy _); [by injection Hv as <-|].
      destruct (last _) as [v|]; [|by injection Hv as <-].
      destruct (truthy v); [done | by injection Hv as <-].
    + destruct (chooseVersion_listed _ _ _ Hv) as [mm ->].
      destruct (placement _ _ _ _ _) as [e|p] eqn:Hp; [|by destruct p].
      by apply placement_error in Hp as (_ & Hnil & _).
Qed.

Local Abbreviation Bound := (bound_to_choice registry oldLock).
Local Abbreviation FrameOfChoice := (frame_of_choice registry oldLock).
Local Abbreviation plan_of_choices := (plan_of_choices registry oldLock).

Lemma progress_plan_of_choices st st' :
  Progress st st' → plan_of_choices st → plan_of_choices st'.
Proof.
  intros [st0 st1 (i & t & _ & Hc)|deps st0 _] [Htop Hframes].
  - apply collectDeps_inv in Hc
      as (manifest & matched & mm & p & Ha & Hv & Hm & _ & ->).
    assert (chosen registry oldLock (t_name t) (t_constraint t) matched mm)
      as Hchosen by (by exists manifest).
    assert (∀ q, plan_of_choices
              (recordAndDescend t matched mm q
                 (with_pending (delete i (pending st0)) st0))) as Hrec.
    { intros q. split.
      - assert (map_Forall Bound
                  (<[t_name t := {| top_url := d_tarball (m_dist mm);
                                    top_version := matched |}]> (topLevel st0)))
          as Hins.
        { apply map_Forall_insert_2; [|done].
          by exists (t_constraint t), mm. }
        by destruct q.
      - intros ref. rewrite stack_of_recordAndDescend.
        destruct (decide _); [|apply Hframes].
        apply Forall_app. split; [apply Hframes|].
        constructor; [|constructor]. by exists (t_constraint t), mm. }
    destruct p; try apply Hrec. by split.
  - split; [done|]. intros ref. unfold stack_of. simpl.
    rewrite lookup_empty. constructor.
Qed.

(** X13.  Throughout a run, every binding of [topLevel] carries the version
    chosen for some demand of the bound name and the tarball that the
    manifest lists for that version, and every frame of every stack array
    carries the version chosen for a demand of its name with the
    dependencies that the manifest lists for it. *)
Theorem plan_holds_chosen_versions st st' :
  rtc Progress st st' →
  map_Forall Bound (topLevel st) →
  (∀ ref, Forall FrameOfChoice (stack_of st ref)) →
  map_Forall Bound (topLevel st') ∧
  ∀ ref, Forall FrameOfChoice (stack_of st' ref).
Proof.
  intros Hrun Htop Hframes.
  assert (plan_of_choices st) as Hplan by (by split).
  clear Htop Hframes.
  induction Hrun as [|st st1 st' Hp _ IH]; [done|].
  apply IH. by apply (progress_plan_of_choices st).
Qed.

Lemma collectDeps_installCount t st st' :
  Collect t st = inr st' →
  st' = st ∨ installCount st' = S (installCount st).
Proof.
  intros (manifest & matched & mm & p & _ & _ & _ & Hp & ->)%collectDeps_inv.
  unfold installCount.
  destruct p; [right|by left|right..]; simpl.
  - apply placement_top_iff in Hp. by rewrite map_size_insert_None.
  - rewrite length_app. simpl. lia.
  - rewrite length_app. simpl. lia.
Qed.

(** X14.  The number that the front end hands to [log.prepareInstall], the
    size of [topLevel] plus the length of [unsatisfied]: a call that returns
    either is covered, and changes nothing, or adds exactly one package to
    install and pushes exactly one frame; along a run the number never
    decreases. *)
Theorem installCount_counts_placed_calls :
  (∀ t st st',
     Collect t st = inr st' →
     st' = st ∨
     (installCount st' = S (installCount st) ∧
      length (stack_of st' (t_stack t)) =
        S (length (stack_of st (t_stack t))))) ∧
  (∀ st st', rtc Progress st st' → (installCount st ≤ installCount st')%nat).
Proof.
  split.
  - intros t st st' Hc.
    destruct (collectDeps_installCount _ _ _ Hc) as [->|Hcount]; [by left|].
    destruct (collectDeps_stacks _ _ _ _ _ Hc) as [->|(matched & mm & Hst)];
      [by left|].
    right. split; [done|].
    rewrite Hst, decide_True, length_app by done. simpl. lia.
  - intros st st' Hrun.
    induction Hrun as [|st st1 st' Hp _ IH]; [done|].
    etrans; [|exact IH].
    destruct Hp as [st0 st1 (i & t & _ & Hc)|deps st0 _]; [|done].
    destruct (collectDeps_installCount _ _ _ Hc) as [->|Hcount].
    + done.
    + change (installCount st0)
        with (installCount (with_pending (delete i (pending st0)) st0)).
      lia.
Qed.

End PlanInvariants.

(** ** The manifest, the lock file and the front end *)

Lemma rewriteRanges_keys items (deps : DependenciesMap) :
  Forall (λ item, item.1 ∈ obj_keys deps) items →
  obj_keys (rewriteRanges items deps) = obj_keys deps.
Proof.
  induction items as [|[name version] items IH] using rev_ind; [done|].
  intros [Hitems Hlast]%Forall_app. rewrite rewriteRanges_snoc.
  rewrite obj_keys_set, IH by done.
  rewrite Forall_singleton in Hlast. by rewrite decide_True.
Qed.

Lemma obj_get_elem_of {V} (k : string) (v : V) (o : JsObject V) :
  NoDup (obj_keys o) → obj_get k o = Some v ↔ (k, v) ∈ o.
Proof.
  intros Hnd. split; [apply obj_get_Some_elem|].
  induction o as [|[k' v'] o IH]; [by inversion 1|].
  apply NoDup_cons in Hnd as [Hk' Hnd]. simpl.
  intros [[= -> ->]|Hin]%elem_of_cons.
  - by rewrite String.eqb_refl.
  - destruct (String.eqb_spec k' k) as [->|_]; [|by apply IH].
    destruct Hk'. apply list_elem_of_fmap. by exists (k, v).
Qed.

Lemma obj_get_Permutation {V} (k : string) (o o' : JsObject V) :
  NoDup (obj_keys o) → o ≡ₚ o' → obj_get k o = obj_get k o'.
Proof.
  intros Hnd Hperm.
  assert (NoDup (obj_keys o')) as Hnd'.
  { unfold obj_keys. by rewrite <- Hperm. }
  apply option_eq. intros v.
  rewrite !obj_get_elem_of by done. by rewrite Hperm.
Qed.

Lemma assignLock_snoc loaded key item oldLock :
  assignLock (loaded ++ [(key, item)]) oldLock =
  <[key := item]> (assignLock loaded oldLock).
Proof. unfold assignLock. by rewrite fold_left_app. Qed.

Lemma assignLock_lookup loaded oldLock key :
  assignLock loaded oldLock !! key =
  match obj_get key (reverse loaded) with
  | Some item => Some item
  | None => oldLock !! key
  end.
Proof.
  induction loaded as [|[k item] loaded IH] using rev_ind; [done|].
  rewrite assignLock_snoc, reverse_snoc. simpl.
  destruct (String.eqb_spec k key) as [->|Hne].
  - by rewrite lookup_insert_eq.
  - by rewrite lookup_insert_ne.
Qed.

Lemma no_at_append name constraint :
  no_at (name +:+ "@" +:+ constraint) = false.
Proof.
  induction name as [|c name IH]; [done|].
  simpl. rewrite IH. apply andb_false_r.
Qed.

Lemma addPackages_snoc pkgs pkg field :
  addPackages (pkgs ++ [pkg]) field = obj_set pkg "" (addPackages pkgs field).
Proof. unfold addPackages. by rewrite fold_left_app. Qed.

Lemma addPackages_lookup pkgs field name :
  obj_get name (addPackages pkgs field) =
  if decide (name ∈ pkgs) then Some "" else obj_get name field.
Proof.
  induction pkgs as [|pkg pkgs IH] using rev_ind.
  - destruct (decide (name ∈ [])) as [Hin|]; [by inversion Hin | done].
  - rewrite addPackages_snoc.
    destruct (decide (pkg = name)) as [->|Hne].
    + rewrite obj_get_set_eq. rewrite decide_True; [done|].
      apply elem_of_app. right. by left.
    + rewrite obj_get_set_ne, IH by done.
      destruct (decide (name ∈ pkgs)) as [Hin|Hnot].
      * rewrite decide_True; [done|]. apply elem_of_app. by left.
      * rewrite decide_False; [done|].
        intros [?|?%list_elem_of_singleton]%elem_of_app; congruence.
Qed.

Section ManifestFacts.
Context `{Semver}.
Variable registry : gmap string Manifest.
Variable oldLock : gmap string LockEntry.

Local Abbreviation Step := (step registry oldLock).

Lemma fieldResolves_keys field st field' st' :
  fieldResolves registry oldLock field st field' st' →
  obj_keys <$> field' = obj_keys <$> field.
Proof.
  destruct field as [deps|]; simpl; [|by intros [-> _]].
  intros (items & Hrun & Hdel & ->). simpl. f_equal.
  assert (items = returned st') as ->.
  { unfold delivered in Hdel. destruct (pending st'); congruence. }
  apply (rootCalls_root_signals registry oldLock) in Hrun as [_ Hret].
  apply rewriteRanges_keys.
  eapply Forall_impl; [exact Hret|].
  intros [name version] [Hin _]. simpl in *.
  apply list_elem_of_fmap. by exists (name, "").
Qed.

(** The depth-first run of a field is one of its schedules. *)
Lemma resolveField_fieldResolves fuel field st field' st' :
  resolveField registry oldLock fuel field st = Resolved (field', st') →
  fieldResolves registry oldLock field st field' st'.
Proof.
  destruct field as [deps|]; simpl; [|by intros [= <- <-]].
  destruct (run _ _ _ _) as [|e|st1] eqn:Hrun; try discriminate.
  intros [= <- <-]. apply run_schedule in Hrun as [Hrun Hdone].
  exists (returned st1). split; [done|]. split; [|done].
  unfold delivered. by rewrite Hdone.
Qed.

Lemma listDefault_listResolves fuel rootManifest st rewritten st' :
  listDefault registry oldLock fuel rootManifest st =
    Resolved (rewritten, st') →
  listResolves registry oldLock rootManifest st rewritten st'.
Proof.
  unfold listDefault.
  destruct (resolveField _ _ _ (pj_dependencies _) st)
    as [|e|[dependencies st1]] eqn:H1; try discriminate.
  destruct (resolveField _ _ _ (pj_devDependencies _) st1)
    as [|e|[devDependencies st2]] eqn:H2; try discriminate.
  intros [= <- <-]. exists st1. simpl.
  split; by eapply resolveField_fieldResolves.
Qed.

(** X15.  The default export rewrites ranges only.  Under any schedule of
    the bodies, when it returns, each field of the manifest has the keys it
    had, in the order it had them, and a field that was absent is still
    absent. *)
Theorem listDefault_keeps_manifest_keys rootManifest st rewritten st' :
  listResolves registry oldLock rootManifest st rewritten st' →
  obj_keys <$> pj_dependencies rewritten =
    obj_keys <$> pj_dependencies rootManifest ∧
  obj_keys <$> pj_devDependencies rewritten =
    obj_keys <$> pj_devDependencies rootManifest.
Proof.
  intros (st1 & H1 & H2).
  split; by eapply fieldResolves_keys.
Qed.

End ManifestFacts.

(** X16.  The keys of the lock, ["<name>@<constraint>"], tell two demands
    apart as long as the ranges contain no [@]: two demands with the same
    key are then the same demand. *)
Theorem lockKey_injective name1 range1 name2 range2 :
  no_at range1 = true → no_at range2 = true →
  lockKey name1 range1 = lockKey name2 range2 →
  name1 = name2 ∧ range1 = range2.
Proof.
  intros H1 H2. unfold lockKey. revert name2.
  induction name1 as [|c1 name1 IH]; intros [|c2 name2] Heq.
  - change (String "@" range1 = String "@" range2) in Heq.
    by injection Heq as ->.
  - change (String "@" range1 = String c2 (name2 +:+ "@" +:+ range2)) in Heq.
    injection Heq as <- ->. by rewrite no_at_append in H1.
  - change (String c1 (name1 +:+ "@" +:+ range1) = String "@" range2) in Heq.
    injection Heq as -> <-. by rewrite no_at_append in H2.
  - change (String c1 (name1 +:+ "@" +:+ range1) =
            String c2 (name2 +:+ "@" +:+ range2)) in Heq.
    injection Heq as -> Heq. by destruct (IH _ Heq) as [-> ->].
Qed.

(** X17.  [readLock] and [getItem].  Without a lock file the old lock is
    left as it is.  With one, a key is looked up in the loaded entries, the
    last one listed under the key, before the entries that the old lock
    already had.  When the loaded document has one entry per key, the order
    in which it lists them does not matter, and in a process whose old lock
    was empty [getItem] answers a request with the synthetic manifest of the
    entry that the file has under ["<name>@<constraint>"], if any. *)
Theorem readLock_lookup :
  (∀ oldLock, readLock None oldLock = oldLock) ∧
  (∀ loaded oldLock key,
     readLock (Some loaded) oldLock !! key =
     match obj_get key (reverse loaded) with
     | Some item => Some item
     | None => oldLock !! key
     end) ∧
  (∀ loaded loaded' oldLock,
     NoDup (obj_keys loaded) → loaded ≡ₚ loaded' →
     readLock (Some loaded) oldLock = readLock (Some loaded') oldLock) ∧
  (∀ loaded name constraint,
     NoDup (obj_keys loaded) →
     getItem (readLock (Some loaded) ∅) name constraint =
     synthetic <$> obj_get (lockKey name constraint) loaded).
Proof.
  split; [done|]. split; [intros; apply assignLock_lookup|].
  assert (∀ loaded : JsObject LockEntry,
            NoDup (obj_keys loaded) → NoDup (obj_keys (reverse loaded)))
    as Hrev.
  { intros loaded Hnd. unfold obj_keys.
    by rewrite (reverse_Permutation loaded). }
  split.
  - intros loaded loaded' oldLock Hnd Hperm. apply map_eq. intros key.
    simpl. rewrite !assignLock_lookup.
    rewrite (obj_get_Permutation key (reverse loaded) (reverse loaded'));
      [done | by apply Hrev |].
    by rewrite !reverse_Permutation.
  - intros loaded name constraint Hnd. unfold getItem. simpl.
    rewrite assignLock_lookup, lookup_empty.
    rewrite (obj_get_Permutation _ (reverse loaded) loaded);
      [|by apply Hrev | apply reverse_Permutation].
    by destruct (obj_get _ loaded).
Qed.


(** ** Schedules: their length and what they decide *)

Section ScheduleFacts.
Context `{Semver}.
Variable registry : gmap string Manifest.
Variable oldLock : gmap string LockEntry.

Local Abbreviation Collect := (collectDeps registry oldLock).
Local Abbreviation Step := (step registry oldLock).
Local Abbreviation Measure := (measure registry oldLock).

Lemma runBody_step i st :
  rtc Step st (runBody registry oldLock i st).
Proof.
  unfold runBody. destruct (pending st !! i) as [t|] eqn:Hi; [|done].
  destruct (Collect t _) as [e|st'] eqn:Hc; [done|].
  apply rtc_once. by exists i, t.
Qed.

(** Every order of the bodies is a schedule of [step]. *)
Lemma runBodies_schedule order st :
  rtc Step st (runBodies registry oldLock order st).
Proof.
  revert st. induction order as [|i order IH]; intros st; [done|].
  simpl. etrans; [apply (runBody_step i) | apply IH].
Qed.

(** X20.  When the version chosen for each demand satisfies the range of
    the demand, the number of bodies that run to completion in a schedule is
    bounded by the measure of the state it starts from: each completed body
    uses up at least one unit of it. *)
Theorem schedule_length_bounded n st st' :
  coherent registry oldLock = true →
  nsteps Step n st st' →
  (n + Measure st' ≤ Measure st)%nat.
Proof.
  intros Hcoherent Hrun.
  induction Hrun as [|n st st1 st' Hs _ IH]; [done|].
  apply (step_measure registry oldLock Hcoherent) in Hs. lia.
Qed.

(** X21.  Lines 62-68.  A call whose name is bound at the top level to a
    version that does not satisfy the range, and which returns, has found a
    last frame on its stack array, whichever call pushed it: the package is
    nested under the name of that frame, with the tarball of the chosen
    version, and the top level is left as it was. *)
Theorem incompatible_binding_nests_under_last_frame t st st' bound :
  topLevel st !! t_name t = Some bound →
  satisfies (top_version bound) (t_constraint t) = false →
  Collect t st = inr st' →
  ∃ stack fr matched mm,
    stack_of st (t_stack t) = stack ++ [fr] ∧
    chosen registry oldLock (t_name t) (t_constraint t) matched mm ∧
    unsatisfied st' =
      unsatisfied st ++
        [unsatisfiedEntry (t_name t) (f_name fr) (d_tarball (m_dist mm))] ∧
    topLevel st' = topLevel st ∧
    stack_of st' (t_stack t) =
      stack ++ [fr; frame_of (t_name t) matched mm].
Proof.
  intros Hb Hs
    (manifest & matched & mm & p & Ha & Hv & Hm & Hp & ->)%collectDeps_inv.
  unfold placement in Hp. rewrite Hb, Hs in Hp.
  destruct (stack_of st (t_stack t)) as [|fr stack _] eqn:Hstack
    using rev_ind; [done|].
  rewrite last_snoc in Hp. injection Hp as <-.
  exists stack, fr, matched, mm. split; [done|].
  split; [by exists manifest|]. split; [done|]. split; [done|].
  rewrite stack_of_recordAndDescend, decide_True, Hstack by done.
  by rewrite <- (assoc_L (++)).
Qed.

End ScheduleFacts.

(** ** What the resolver reads and what it keeps *)

Lemma lockKey_one_demand name range name' range' :
  no_at name = true → no_at range = true →
  lockKey name range = lockKey name' range' →
  name' = name ∧ range' = range.
Proof.
  intros Hname Hrange. unfold lockKey. revert name' Hname.
  induction name as [|c name IH]; intros [|c' name'] Hname Heq.
  - change (String "@" range = String "@" range') in Heq.
    by injection Heq as ->.
  - change (String "@" range = String c' (name' +:+ "@" +:+ range')) in Heq.
    injection Heq as <- ->. by rewrite no_at_append in Hrange.
  - change (String c (name +:+ "@" +:+ range) = String "@" range') in Heq.
    injection Heq as -> _. done.
  - change (String c (name +:+ "@" +:+ range) =
            String c' (name' +:+ "@" +:+ range')) in Heq.
    injection Heq as -> Heq. simpl in Hname.
    apply andb_true_iff in Hname as [_ Hname].
    by destruct (IH _ Hname Heq) as [-> ->].
Qed.

Section LockInvariants.
Context `{Semver}.
Variable registry : gmap string Manifest.
Variable oldLock : gmap string LockEntry.

Local Abbreviation Acquire := (acquireManifest registry oldLock).
Local Abbreviation Collect := (collectDeps registry oldLock).
Local Abbreviation Step := (step registry oldLock).
Local Abbreviation Progress := (progress registry oldLock).
Local Abbreviation Recorded := (recorded registry oldLock).
Local Abbreviation Chosen := (chosen registry oldLock).

Lemma progress_recorded st st' :
  Progress st st' →
  Forall Recorded (newLock st) → Forall Recorded (newLock st').
Proof.
  intros [st0 st1 (i & t & _ & Hc)|deps st0 _] Hall; [|done].
  apply collectDeps_inv in Hc
    as (manifest & matched & mm & p & Ha & Hv & Hm & _ & ->).
  assert (Recorded (lockKey (t_name t) (t_constraint t),
                    lockEntry_of matched mm)) as Hnew.
  { exists (t_name t), (t_constraint t), matched, mm.
    split; [by exists manifest | done]. }
  destruct p; simpl; try done; by apply Forall_obj_set.
Qed.

Lemma progress_entry_kept st st' name range item :
  Progress st st' →
  Forall Recorded (newLock st) →
  no_at name = true → no_at range = true →
  obj_get (lockKey name range) (newLock st) = Some item →
  obj_get (lockKey name range) (newLock st') = Some item.
Proof.
  intros [st0 st1 (i & t & _ & Hc)|deps st0 _] Hall Hname Hrange Hget;
    [|done].
  apply collectDeps_inv in Hc
    as (manifest & matched & mm & p & Ha & Hv & Hm & _ & ->).
  assert (obj_get (lockKey name range)
            (updateOrCreate (lockKey (t_name t) (t_constraint t))
               (lockEntry_of matched mm) (newLock st0)) = Some item) as Hset.
  { unfold updateOrCreate.
    destruct (decide (lockKey (t_name t) (t_constraint t) =
                      lockKey name range)) as [Heq|Hne];
      [|by rewrite obj_get_set_ne].
    rewrite Heq, obj_get_set_eq. f_equal.
    symmetry in Heq.
    apply lockKey_one_demand in Heq as [Hn Hr]; [|done..].
    apply obj_get_Some_elem in Hget.
    rewrite Forall_forall in Hall.
    destruct (Hall _ Hget) as (n & c & m0 & mm0 & Hchosen & Hkey & Hitem).
    simpl in Hkey, Hitem. subst item.
    apply lockKey_one_demand in Hkey as [-> ->]; [|done..].
    assert (Chosen name range matched mm) as Hnow
      by (rewrite <- Hn, <- Hr; by exists manifest).
    by destruct (chosen_once registry oldLock _ _ _ _ _ _ Hchosen Hnow) as [-> ->]. }
  by destruct p.
Qed.

(** X23.  An entry of the new lock is never changed once it is written, as
    long as neither the name nor the range of its demand contains [@]: a
    later call for the same demand chooses the same version from the same
    manifest and writes the same entry again. *)
Theorem lock_entry_is_never_changed st st' name range item :
  rtc Progress st st' →
  Forall Recorded (newLock st) →
  no_at name = true → no_at range = true →
  obj_get (lockKey name range) (newLock st) = Some item →
  obj_get (lockKey name range) (newLock st') = Some item.
Proof.
  intros Hrun Hall Hname Hrange.
  induction Hrun as [|st st1 st' Hp _ IH]; [done|].
  intros Hget. apply IH.
  - by apply (progress_recorded st).
  - by apply (progress_entry_kept st).
Qed.

Lemma collectDeps_same_view t st1 st2 :
  same_view st1 st2 → same_outcome (Collect t st1) (Collect t st2).
Proof.
  intros (Htop & Hstacks & Hpending). unfold collectDeps, stack_of.
  rewrite <- Htop, <- Hstacks.
  destruct (Acquire _ _) as [manifest|]; [|done].
  destruct (chooseVersion _ _) as [e|matched]; [done|].
  destruct (obj_get matched manifest) as [mm|]; [|done].
  destruct (placement _ _ _ _ _) as [e|p]; [done|].
  destruct p; repeat split; simpl; unfold stack_of; congruence.
Qed.

Lemma with_pending_same_view rest st1 st2 :
  same_view st1 st2 →
  same_view (with_pending rest st1) (with_pending rest st2).
Proof. by intros (Htop & Hstacks & _). Qed.

Lemma run_same_view fuel st1 st2 :
  same_view st1 st2 →
  same_result (run registry oldLock fuel st1) (run registry oldLock fuel st2).
Proof.
  revert st1 st2. induction fuel as [|fuel IH]; intros st1 st2 Hview;
    pose proof Hview as (_ & _ & Hpending); simpl; rewrite <- Hpending;
    destruct (pending st1) as [|t rest]; try done.
  pose proof (collectDeps_same_view t _ _
                (with_pending_same_view rest _ _ Hview)) as Hsame.
  destruct (Collect t (with_pending rest st1)) as [e1|st1'],
           (Collect t (with_pending rest st2)) as [e2|st2'];
    simpl in Hsame; try done.
  by apply IH.
Qed.

(** X22.  The resolver writes the new lock, [unsatisfied] and the values
    for the driver, and never reads them: from two module states that agree
    on [topLevel], on the stack arrays and on the pending calls, a call, and
    a whole run, end in the same way, with the same error or in states that
    agree again.  In particular an entry of the new lock never answers a
    later demand of the same run. *)
Theorem resolver_never_reads_what_it_writes st1 st2 :
  same_view st1 st2 →
  (∀ t, same_outcome (Collect t st1) (Collect t st2)) ∧
  (∀ fuel,
     same_result (run registry oldLock fuel st1)
                 (run registry oldLock fuel st2)).
Proof.
  intros Hview. split.
  - intros t. by apply collectDeps_same_view.
  - intros fuel. by apply run_same_view.
Qed.

(** X24.  Lines 48-49.  A call for a name that is not bound at the top
    level, and which returns, binds the name there to the chosen version,
    however deep the call is: nothing is added to [unsatisfied], and the
    frame of the package is pushed on the stack array of the call. *)
Theorem unbound_name_is_bound_at_top_level t st st' :
  topLevel st !! t_name t = None →
  Collect t st = inr st' →
  ∃ matched mm,
    Chosen (t_name t) (t_constraint t) matched mm ∧
    topLevel st' =
      <[t_name t := {| top_url := d_tarball (m_dist mm);
                       top_version := matched |}]> (topLevel st) ∧
    unsatisfied st' = unsatisfied st ∧
    stack_of st' (t_stack t) =
      stack_of st (t_stack t) ++ [frame_of (t_name t) matched mm].
Proof.
  intros Hnone
    (manifest & matched & mm & p & Ha & Hv & Hm & Hp & ->)%collectDeps_inv.
  unfold placement in Hp. rewrite Hnone in Hp. injection Hp as <-.
  exists matched, mm. split; [by exists manifest|].
  split; [done|]. split; [done|].
  by rewrite stack_of_recordAndDescend, decide_True.
Qed.

End LockInvariants.

(** ** The further properties on concrete registries *)

Section ConcreteRuns.
Import Examples Scenarios.
Existing Instance NodeSemver.semver.

Lemma placement_under_conflict_witness :
  0 ≤ 0 < Z.of_nat (length chain_stack) ∧
  0 = checkStackDependencies "D" "1.0.0" chain_stack ∧
  ∃ k : nat,
    (k < length chain_stack)%nat ∧
    k = (if 0 <? 2 then (length chain_stack - Z.to_nat (2 - 0))%nat
         else Z.to_nat (0 - 2)) ∧
    "B/node_modules/C" = join "/node_modules/" (drop k (map f_name chain_stack)).
Proof.
  apply (placement_under_conflict "D" "" "1.0.0" chain_stack chain_top).
  vm_compute. reflexivity.
Defined.

(** [A] is listed with the empty range in [dependencies] and in
    [devDependencies]: the second root call changes nothing. *)
Lemma covered_root_demand_changes_nothing_witness :
  let st := after two_majors ∅ (rootCall "A" "" 0) initial in
  topLevel st !! "A" =
    Some {| top_url := "https://registry/A/-/A-2.0.0.tgz";
            top_version := "2.0.0" |} ∧
  after two_majors ∅ (rootCall "A" "" 1) st = st.
Proof.
  intros st. split; [vm_compute; reflexivity|].
  apply (covered_root_demand_changes_nothing two_majors ∅
           (rootCall "A" "" 1) st
           (after two_majors ∅ (rootCall "A" "" 1) st)
           {| top_url := "https://registry/A/-/A-2.0.0.tgz";
              top_version := "2.0.0" |});
    vm_compute; reflexivity.
Defined.

(** The only version of [A] is a prerelease and [A] is demanded twice from
    the manifest, with the empty range: the second call is rejected with
    the [TypeError] of line 65. *)
Lemma collectDeps_type_error_witness :
  let st := after prerelease_only ∅ (rootCall "A" "" 0) initial in
  collectDeps prerelease_only ∅ (rootCall "A" "" 1) st = inl TypeError.
Proof.
  intros st.
  apply (collectDeps_type_error prerelease_only ∅ (rootCall "A" "" 1) st).
  exists "1.0.0-beta", (published "A" "1.0.0-beta" []).2,
    {| top_url := "https://registry/A/-/A-1.0.0-beta.tgz";
       top_version := "1.0.0-beta" |}.
  split.
  - exists [published "A" "1.0.0-beta" []].
    repeat split; vm_compute; reflexivity.
  - repeat split; vm_compute; reflexivity.
Defined.

Lemma newLock_records_choices_witness :
  let st' := runBodies siblings ∅ depth_first (rootCalls siblings_roots initial) in
  obj_keys (newLock st') = ["D@"; "A@"; "B@"; "C@"] ∧
  Forall (recorded siblings ∅) (newLock st').
Proof.
  intros st'. split; [vm_compute; reflexivity|].
  apply (newLock_records_choices siblings ∅
           (rootCalls siblings_roots initial) st').
  - apply rtc_step_progress, runBodies_schedule.
  - constructor.
Defined.

Lemma newLock_keys_only_grow_witness :
  let st := runBodies siblings ∅ [0; 0]%nat (rootCalls siblings_roots initial) in
  let st' := runBodies siblings ∅ [0; 0; 0]%nat st in
  NoDup (obj_keys (newLock st')) ∧
  obj_keys (newLock st) `prefix_of` obj_keys (newLock st').
Proof.
  intros st st'.
  apply (newLock_keys_only_grow siblings ∅ st st').
  - apply rtc_step_progress, runBodies_schedule.
  - apply (bool_decide_unpack _). vm_compute. exact I.
Defined.

Lemma stacks_only_grow_witness :
  let st := runBodies siblings ∅ [0; 0]%nat (rootCalls siblings_roots initial) in
  let st' := runBodies siblings ∅ [0; 1; 0; 0]%nat st in
  map f_name (stack_of st 1) = ["A"] ∧
  map f_name (stack_of st' 1) = ["A"; "B"; "C"; "D"; "D"] ∧
  (∀ ref, stack_of st ref `prefix_of` stack_of st' ref) ∧
  unsatisfied st `prefix_of` unsatisfied st' ∧
  returned st `prefix_of` returned st'.
Proof.
  intros st st'. split; [vm_compute; reflexivity|].
  split; [vm_compute; reflexivity|].
  apply (stacks_only_grow siblings ∅ st st').
  apply runBodies_schedule.
Defined.

(** The call of [B] for [D] has pushed the frame of [D] on the array that
    [A], [B] and [C] share: the body of [C] then makes no call for its own
    demand of [D]. *)
Lemma closed_demand_is_never_called_again_witness :
  let st := runBodies siblings ∅ [0; 0; 0; 0]%nat
              (rootCalls siblings_roots initial) in
  let c := {| t_name := "C"; t_constraint := "";
              t_stack := 1; t_root := false |} in
  pending st = [c] ∧
  map f_name (stack_of st 1) = ["A"; "B"; "D"] ∧
  hasCirculation "D" "" (stack_of st 1) = true ∧
  ∃ calls,
    pending (runBody siblings ∅ 0 st) =
      calls ++ delete 0%nat (pending st) ∧
    Forall (λ c, (t_name c, t_constraint c) ≠ ("D", "")) calls.
Proof.
  intros st c. split; [vm_compute; reflexivity|].
  split; [vm_compute; reflexivity|].
  destruct (closed_demand_is_never_called_again siblings ∅ st st 1
              "D" "") as [Hclosed Hcalls];
    [done | vm_compute; reflexivity|].
  split; [exact Hclosed|].
  apply (Hcalls 0%nat c); vm_compute; reflexivity.
Defined.

Lemma nested_call_finds_a_frame_witness :
  let st' := runBodies siblings ∅ [0; 0; 0]%nat
               (rootCalls siblings_roots initial) in
  let d := {| t_name := "D"; t_constraint := "";
              t_stack := 1; t_root := false |} in
  pending st' !! 0%nat = Some d ∧
  stack_of st' 1 ≠ [] ∧
  (∀ matched e,
     placement "D" "" matched (stack_of st' 1) (topLevel st') ≠ inl e) ∧
  collectDeps siblings ∅ d (with_pending (delete 0%nat (pending st')) st')
    ≠ inl TypeError.
Proof.
  intros st' d. split; [vm_compute; reflexivity|].
  apply (nested_call_finds_a_frame siblings ∅
           (rootCalls siblings_roots initial) st' 0 d).
  - apply rtc_step_progress, runBodies_schedule.
  - apply Forall_forall. intros t Ht Hroot.
    repeat (apply elem_of_cons in Ht as [->|Ht]; [discriminate|]).
    by apply elem_of_nil in Ht.
  - vm_compute. reflexivity.
  - reflexivity.
Defined.

Lemma plan_holds_chosen_versions_witness :
  let st' := runBodies siblings ∅ depth_first (rootCalls siblings_roots initial) in
  dom (topLevel st') = {["A"; "B"; "C"; "D"]} ∧
  map_Forall (bound_to_choice siblings ∅) (topLevel st') ∧
  ∀ ref, Forall (frame_of_choice siblings ∅) (stack_of st' ref).
Proof.
  intros st'. split; [apply (bool_decide_unpack _); vm_compute; exact I|].
  apply (plan_holds_chosen_versions siblings ∅
           (rootCalls siblings_roots initial) st').
  - apply rtc_step_progress, runBodies_schedule.
  - apply map_Forall_empty.
  - intros ref. unfold stack_of. simpl. rewrite lookup_empty. constructor.
Defined.

(** A project with the dependencies [B], [D] and [A], in this order, and no
    [devDependencies]: the entry of [D], which the call below [B] binds
    first, keeps its empty range between the two that are rewritten. *)
Lemma listDefault_keeps_manifest_keys_witness :
  ∃ st',
    install siblings ∅ 16 three_roots =
      Resolved
        ({| pj_dependencies :=
              Some [("B", "^1.0.0"); ("D", ""); ("A", "^1.0.0")];
            pj_devDependencies := None |}, st') ∧
    obj_keys <$> Some [("B", "^1.0.0"); ("D", ""); ("A", "^1.0.0")] =
      obj_keys <$> pj_dependencies three_roots ∧
    obj_keys <$> (None : option DependenciesMap) =
      obj_keys <$> pj_devDependencies three_roots.
Proof.
  eexists. split; [vm_compute; reflexivity|].
  eapply (listDefault_keeps_manifest_keys siblings ∅ three_roots initial
            {| pj_dependencies :=
                 Some [("B", "^1.0.0"); ("D", ""); ("A", "^1.0.0")];
               pj_devDependencies := None |}).
  apply (listDefault_listResolves siblings ∅ 16).
  vm_compute. reflexivity.
Defined.

Lemma lockKey_injective_witness :
  lockKey "A" "^1.0.0" = "A@^1.0.0" ∧ "A" = "A" ∧ "^1.0.0" = "^1.0.0".
Proof.
  split; [reflexivity|].
  apply (lockKey_injective "A" "^1.0.0" "A" "^1.0.0"); reflexivity.
Defined.

Lemma schedule_length_bounded_witness :
  let st := rootCalls [("A", "")] initial in
  let st' := runBody cycle ∅ 0 (runBody cycle ∅ 0 st) in
  pending st' = [] ∧
  (2 + measure cycle ∅ st' ≤ measure cycle ∅ st)%nat.
Proof.
  intros st st'. split; [vm_compute; reflexivity|].
  apply (schedule_length_bounded cycle ∅ 2 st st');
    [vm_compute; reflexivity|].
  apply (nsteps_l _ _ _ (runBody cycle ∅ 0 st)).
  - exists 0%nat, (rootCall "A" "" 0). split; vm_compute; reflexivity.
  - apply nsteps_once.
    exists 0%nat, {| t_name := "B"; t_constraint := "";
                     t_stack := 0; t_root := false |}.
    split; vm_compute; reflexivity.
Defined.

(** The only version of [D] is a prerelease, which the top-level binding
    holds and which satisfies no demand.  The manifest of [C] arrives before
    the one that the call of [B] for [D] waits for: when the body of that
    call runs, the last frame of the shared array is the frame of [C], and
    [D] is nested under [C], not under [B].  The two demands of [D] end
    under [C] and [D] in this order of the bodies, under [B] and [C] in the
    depth-first order. *)
Lemma incompatible_binding_nests_under_last_frame_witness :
  let st := runBodies siblings_prerelease ∅ [0; 0; 0; 1]%nat
              (rootCalls siblings_roots initial) in
  let d := {| t_name := "D"; t_constraint := "";
              t_stack := 1; t_root := false |} in
  let st0 := with_pending (delete 0%nat (pending st)) st in
  pending st = [d; d] ∧
  map f_name (stack_of st 1) = ["A"; "B"; "C"] ∧
  (∃ stack fr matched mm,
     stack_of st0 (t_stack d) = stack ++ [fr] ∧
     chosen siblings_prerelease ∅ (t_name d) (t_constraint d) matched mm ∧
     unsatisfied (runBody siblings_prerelease ∅ 0 st) =
       unsatisfied st0 ++
         [unsatisfiedEntry (t_name d) (f_name fr) (d_tarball (m_dist mm))] ∧
     topLevel (runBody siblings_prerelease ∅ 0 st) = topLevel st0 ∧
     stack_of (runBody siblings_prerelease ∅ 0 st) (t_stack d) =
       stack ++ [fr; frame_of (t_name d) matched mm]) ∧
  map (obj_get "parent")
    (unsatisfied (runBodies siblings_prerelease ∅ [0; 0]%nat st)) =
    [Some "C"; Some "D"] ∧
  map (obj_get "parent")
    (unsatisfied (runBodies siblings_prerelease ∅ [0; 0; 0; 0; 0; 0]%nat
                    (rootCalls siblings_roots initial))) =
    [Some "B"; Some "C"].
Proof.
  intros st d st0. split; [vm_compute; reflexivity|].
  split; [vm_compute; reflexivity|].
  split; [|split; vm_compute; reflexivity].
  apply (incompatible_binding_nests_under_last_frame siblings_prerelease ∅ d
           st0 (runBody siblings_prerelease ∅ 0 st)
           {| top_url := "https://registry/D/-/D-1.0.0-beta.tgz";
              top_version := "1.0.0-beta" |});
    vm_compute; reflexivity.
Defined.

Lemma lock_entry_is_never_changed_witness :
  let st := runBodies siblings ∅ [0]%nat (rootCalls siblings_roots initial) in
  let st' := runBodies siblings ∅ [0; 0; 1; 0; 0]%nat st in
  length (newLock st) = 1%nat ∧ length (newLock st') = 4%nat ∧
  length (stack_of st' 1) = 5%nat ∧
  obj_get (lockKey "D" "") (newLock st') =
    Some (lockEntry_of "1.0.0" (published "D" "1.0.0" []).2).
Proof.
  intros st st'. split; [vm_compute; reflexivity|].
  split; [vm_compute; reflexivity|]. split; [vm_compute; reflexivity|].
  apply (lock_entry_is_never_changed siblings ∅ st st').
  - apply rtc_step_progress, runBodies_schedule.
  - assert (newLock st =
            [(lockKey "D" "",
              lockEntry_of "1.0.0" (published "D" "1.0.0" []).2)]) as ->
      by (vm_compute; reflexivity).
    constructor; [|constructor].
    exists "D", "", "1.0.0", (published "D" "1.0.0" []).2.
    split; [|by split].
    exists [published "D" "1.0.0" []].
    repeat split; vm_compute; reflexivity.
  - vm_compute. reflexivity.
  - vm_compute. reflexivity.
  - vm_compute. reflexivity.
Defined.

(** A run that starts with a new lock that already holds entries for [A]
    and [B] makes the same calls as a run that starts with an empty one. *)
Lemma resolver_never_reads_what_it_writes_witness :
  let st1 := rootCalls [("A", "")] initial in
  let st2 :=
    {| topLevel := ∅; unsatisfied := []; newLock := lock_file;
       stacks := ∅; pending := pending st1; returned := [] |} in
  newLock st1 ≠ newLock st2 ∧
  (∀ t, same_outcome (collectDeps cycle ∅ t st1) (collectDeps cycle ∅ t st2)) ∧
  (∀ fuel, same_result (run cycle ∅ fuel st1) (run cycle ∅ fuel st2)).
Proof.
  intros st1 st2. split; [discriminate|].
  apply (resolver_never_reads_what_it_writes cycle ∅ st1 st2).
  by repeat split.
Defined.

(** [D] is first demanded by [C], three calls below the manifest, and is
    bound at the top level all the same. *)
Lemma unbound_name_is_bound_at_top_level_witness :
  let t := {| t_name := "D"; t_constraint := "";
              t_stack := 0; t_root := false |} in
  let st := with_pending []
              (runBodies chain ∅ [0; 0; 0]%nat
                 (rootCalls [("A", "")] initial)) in
  let st' := after chain ∅ t st in
  map f_name (stack_of st 0) = ["A"; "B"; "C"] ∧
  ∃ matched mm,
    chosen chain ∅ (t_name t) (t_constraint t) matched mm ∧
    topLevel st' =
      <[t_name t := {| top_url := d_tarball (m_dist mm);
                       top_version := matched |}]> (topLevel st) ∧
    unsatisfied st' = unsatisfied st ∧
    stack_of st' (t_stack t) =
      stack_of st (t_stack t) ++ [frame_of (t_name t) matched mm].
Proof.
  intros t st st'. split; [vm_compute; reflexivity|].
  apply (unbound_name_is_bound_at_top_level chain ∅ t st st');
    vm_compute; reflexivity.
Defined.

End ConcreteRuns.
